(** * common/buf/io.go : the copy engine and the reader / writer factories

    A shallow embedding of [common/buf/io.go] (package [buf] of v2ray-core)
    and the theorems proved about it.

    Layout
    - Part I   : errors, chunks, the [Reader] / [Writer] / [ActivityTimer]
                 interfaces, [copyInternal] and [Copy];
    - Part II  : raw streams, the adapters and the factory functions;
    - Part III : concrete sources and sinks to run the code on, and what a
                 reader stands for;
    - Part IV  : lemmas and theorems;
    - Part V   : whole runs of the copy loop, and the suppliers. *)

From Stdlib.Strings Require Import String Byte.
From Stdlib Require Import List Bool Arith NArith ZArith Lia.
Import ListNotations.

Set Implicit Arguments.
Set Warnings "-register-all".

(* ================================================================== *)
(** * Part I : the copy engine                                         *)
(* ================================================================== *)

(** ** Errors

    A Go [error] value.  [io.EOF] and [io.ErrUnexpectedEOF] are the
    sentinels of the standard library, [foreign] is any other error value
    that carries no inner error, and [Error] is [*errors.Error] of
    [v2ray.com/core/common/errors]: a message and an optional inner error.
    The nil error is [None : option error]. *)
Inductive error : Type :=
| io_EOF
| io_ErrUnexpectedEOF
| io_ErrShortWrite
| foreign (msg : string)
| Error (message : string) (inner : option error).

(** Modelled from the spec: [errors.Cause] lives in
    [v2ray.com/core/common/errors], which is not part of the sources at
    hand.  The spec calls what [Copy] compares with end-of-stream the
    error's root cause: the innermost error reached by unwrapping inner
    errors for as long as there is one. *)
Fixpoint Cause (e : error) : error :=
  match e with
  | Error _ (Some inner) => Cause inner
  | _ => e
  end.

(** [err == io.EOF] : comparison with the sentinel. *)
Definition is_EOF (e : error) : bool :=
  match e with
  | io_EOF => true
  | _ => false
  end.

(** Modelled from the spec: [newError] is generated code of package [buf]
    that is not part of the sources at hand; it builds an [*errors.Error]
    with the given message and no inner error. *)
Definition newError (msg : string) : error := Error msg None.

(** [var ErrReadTimeout = newError("IO timeout")] *)
Definition ErrReadTimeout : error := newError "IO timeout".

(** ** Chunks

    Modelled from the spec: the chunk type [MultiBuffer] is external to
    [io.go]; the copy engine only needs its emptiness test and its explicit
    release.  A chunk is the bytes it carries together with the identity of
    its storage ([mb_id]), which is what a release refers to. *)
Record MultiBuffer : Type := mkMultiBuffer {
  mb_id : nat;
  mb_bytes : list byte
}.

(** The nil [MultiBuffer] that accompanies a non-nil error. *)
Definition nil_MultiBuffer : MultiBuffer := mkMultiBuffer 0 [].

Definition IsEmpty (mb : MultiBuffer) : bool :=
  match mb_bytes mb with
  | [] => true
  | _ :: _ => false
  end.

(** ** Observable events

    Every call the copy loop makes on one of its collaborators is recorded,
    in program order, in a trace.  A release is recorded with the party that
    performed it: the copy loop itself ([Loop]) or the sink, inside its
    [Write] ([Sink]). *)
Inductive party : Type := Loop | Sink.

Inductive event : Type :=
| EvRead (mb : MultiBuffer) (err : option error)   (* reader.Read() returned *)
| EvUpdate                                          (* timer.Update()         *)
| EvIsEmpty (mb : MultiBuffer)                      (* buffer.IsEmpty()       *)
| EvWrite (mb : MultiBuffer)                        (* writer.Write(buffer)   *)
| EvRelease (who : party) (id : nat).               (* Release() of a chunk   *)

Definition is_update (e : event) : bool :=
  match e with EvUpdate => true | _ => false end.

Definition is_release_of (id : nat) (e : event) : bool :=
  match e with EvRelease _ i => Nat.eqb i id | _ => false end.

(** How many times the chunk [id] is released in a trace, by anyone. *)
Definition releases (id : nat) (tr : list event) : nat :=
  length (filter (is_release_of id) tr).

Definition updates (tr : list event) : nat :=
  length (filter is_update tr).

Definition is_read_ok (e : event) : bool :=
  match e with EvRead _ None => true | _ => false end.

(** How many reads of a trace succeeded. *)
Definition reads_ok (tr : list event) : nat :=
  length (filter is_read_ok tr).

(** ** The interfaces of [io.go]

    [Reader.Read() (MultiBuffer, error)], [Writer.Write(MultiBuffer) error]
    and [signal.ActivityTimer.Update()].  An implementation is a state type
    with the method as a transition.  A [Write] also reports the chunks the
    implementation released while it ran, in order. *)
Class Reader (R : Type) : Type := Read : R -> MultiBuffer * option error * R.

Class Writer (W : Type) : Type := Write : W -> MultiBuffer -> option error * list nat * W.

Class ActivityTimer (T : Type) : Type := Update : T -> T.

Section CopyEngine.

Context {R W T : Type}.
Context {HR : Reader R} {HW : Writer W} {HT : ActivityTimer T}.

(** What [copyInternal] works on: its three arguments and the trace. *)
Record state : Type := mkState {
  reader : R;
  writer : W;
  timer : T;
  trace : list event
}.

Definition emit (evs : list event) (s : state) : state :=
  mkState (reader s) (writer s) (timer s) (trace s ++ evs).

(** [buffer.Release()] called by the copy loop. *)
Definition Release (mb : MultiBuffer) (s : state) : state :=
  emit [EvRelease Loop (mb_id mb)] s.

(** One pass through the body of [for { ... }] either falls through to
    the next pass or leaves the function with [return err]. *)
Inductive outcome : Type :=
| Continue (s : state)
| Return (err : option error) (s : state).

Definition loop_body (s : state) : outcome :=
  (* buffer, err := reader.Read() *)
  let '(buffer, err, r') := Read (reader s) in
  let s := emit [EvRead buffer err] (mkState r' (writer s) (timer s) (trace s)) in
  match err with
  | Some e =>
      (* if err != nil { return err } *)
      Return (Some e) s
  | None =>
      (* timer.Update() *)
      let s := emit [EvUpdate]
                 (mkState (reader s) (writer s) (Update (timer s)) (trace s)) in
      (* if buffer.IsEmpty() { buffer.Release(); continue } *)
      let s := emit [EvIsEmpty buffer] s in
      if IsEmpty buffer then Continue (Release buffer s)
      else
        (* if err := writer.Write(buffer); err != nil *)
        let '(werr, released, w') := Write (writer s) buffer in
        let s := emit (EvWrite buffer :: map (EvRelease Sink) released)
                   (mkState (reader s) w' (timer s) (trace s)) in
        match werr with
        | Some e =>
            (* buffer.Release(); return err *)
            Return (Some e) (Release buffer s)
        | None => Continue s
        end
  end.

(** The state a pass ends in, whichever way it ends. *)
Definition state_of (o : outcome) : state :=
  match o with
  | Continue s => s
  | Return _ s => s
  end.

(** [copyInternal]: the loop has no exit of its own, so the embedding
    counts passes; [None] means the passes allowed were used up before a
    [return] was reached. *)
Fixpoint copyInternal (fuel : nat) (s : state) : option (option error * state) :=
  match fuel with
  | O => None
  | S fuel' =>
      match loop_body s with
      | Return err s' => Some (err, s')
      | Continue s' => copyInternal fuel' s'
      end
  end.

(** [Copy]:
    [if err != nil && errors.Cause(err) != io.EOF { return err }; return nil] *)
Definition Copy (fuel : nat) (s : state) : option (option error * state) :=
  match copyInternal fuel s with
  | None => None
  | Some (err, s') =>
      match err with
      | Some e => if negb (is_EOF (Cause e)) then Some (Some e, s')
                  else Some (None, s')
      | None => Some (None, s')
      end
  end.

(** The state after [k] passes that all fell through. *)
Fixpoint passes (k : nat) (s : state) : option state :=
  match k with
  | O => Some s
  | S k' =>
      match loop_body s with
      | Continue s' => passes k' s'
      | Return _ _ => None
      end
  end.

(** The source hands out the chunks [mbs], one per [Read], and then
    reports the error [e]. *)
Fixpoint reads_then (r : R) (mbs : list MultiBuffer) (e : error) : Prop :=
  match mbs with
  | [] => exists mb r', Read r = (mb, Some e, r')
  | mb :: rest => exists r', Read r = (mb, None, r') /\ reads_then r' rest e
  end.

(** The sink accepts, in order, every chunk of [mbs] that is not empty
    (the empty ones never reach it). *)
Fixpoint writes_ok (w : W) (mbs : list MultiBuffer) : Prop :=
  match mbs with
  | [] => True
  | mb :: rest =>
      if IsEmpty mb then writes_ok w rest
      else exists released w',
             Write w mb = (None, released, w') /\ writes_ok w' rest
  end.

End CopyEngine.

Arguments state : clear implicits.

(* ================================================================== *)
(** * Part II : raw streams, adapters and factories                    *)
(* ================================================================== *)

(** ** Raw byte streams ([io.Reader], [io.Writer])

    A raw source is the bytes still to come ([pending]), how many of them
    each of the next reads delivers at most ([sched]; a read may be short,
    and once the list is used up a read delivers all there is room for),
    the error reported once the bytes are used up ([fin], normally
    [io.EOF]), and whether that error comes together with the last bytes
    or only on the read after them ([eager]: a [Read] may return [n > 0]
    and a non-nil error at once). *)
Record rawstream : Type := mkRaw {
  pending : list byte;
  sched : list nat;
  fin : error;
  eager : bool
}.

(** The number of bytes the next read delivers into a slice of length
    [cap]. *)
Definition granted (st : rawstream) (cap : nat) : nat :=
  Nat.min cap
    (Nat.min (match sched st with [] => length (pending st) | n :: _ => n end)
             (length (pending st))).

(** [Read(p []byte) (n int, err error)] on a raw source: the count, the
    error, the slice [p] after the call, the source after the call. *)
Definition raw_Read (st : rawstream) (p : list byte)
  : nat * option error * list byte * rawstream :=
  match pending st with
  | [] => (0, Some (fin st), p, st)
  | _ :: _ =>
      let n := granted st (length p) in
      (n,
       (if eager st && (length (pending st) <=? n) then Some (fin st) else None),
       firstn n (pending st) ++ skipn n p,
       mkRaw (skipn n (pending st)) (tl (sched st)) (fin st) (eager st))
  end.

(** A raw source that natively hands out chunks ([MultiBufferReader]):
    [allocs] numbers the chunks it creates. *)
Record MultiBufferReader : Type := mkMBR {
  mbr_stream : rawstream;
  mbr_allocs : nat
}.

(** [ReadMultiBuffer() (MultiBuffer, error)]: the next piece of the
    stream, whole. *)
Definition ReadMultiBuffer (mr : MultiBufferReader)
  : MultiBuffer * option error * MultiBufferReader :=
  let st := mbr_stream mr in
  match pending st with
  | [] => (nil_MultiBuffer, Some (fin st), mr)
  | _ :: _ =>
      let n := granted st (length (pending st)) in
      (mkMultiBuffer (mbr_allocs mr) (firstn n (pending st)), None,
       mkMBR (mkRaw (skipn n (pending st)) (tl (sched st)) (fin st) (eager st))
             (S (mbr_allocs mr)))
  end.

(** An [io.Reader] value: its dynamic type either has [Read] only, or
    has [ReadMultiBuffer] as well. *)
Inductive io_Reader : Type :=
| plain_reader (st : rawstream)
| chunked_reader (mr : MultiBufferReader).

(** The type assertion [reader.(MultiBufferReader)]. *)
Definition as_MultiBufferReader (r : io_Reader) : option MultiBufferReader :=
  match r with
  | plain_reader _ => None
  | chunked_reader mr => Some mr
  end.

Definition stream_of (r : io_Reader) : rawstream :=
  match r with
  | plain_reader st => st
  | chunked_reader mr => mbr_stream mr
  end.

(** The [io.Reader] interface: [Read(p)] gives the count, the error, the
    slice after the call and the reader after the call. *)
Class ByteReader (S : Type) : Type := io_Read : S -> list byte -> nat * option error * list byte * S.

#[export] Instance io_Reader_ByteReader : ByteReader io_Reader :=
  fun r p =>
    match r with
    | plain_reader st =>
        let '(n, err, p', st') := raw_Read st p in (n, err, p', plain_reader st')
    | chunked_reader mr =>
        let '(n, err, p', st') := raw_Read (mbr_stream mr) p in
        (n, err, p', chunked_reader (mkMBR st' (mbr_allocs mr)))
    end.

(** A raw sink: the bytes taken so far, how many more it takes before it
    fails ([None]: it never fails), and the error it then reports. *)
Record rawsink : Type := mkSink {
  accepted : list byte;
  room : option nat;
  refusal : error
}.

(** [Write(p []byte) (n int, err error)] on a raw sink. *)
Definition raw_Write (sk : rawsink) (p : list byte) : nat * option error * rawsink :=
  match room sk with
  | None => (length p, None, mkSink (accepted sk ++ p) None (refusal sk))
  | Some k =>
      if length p <=? k
      then (length p, None, mkSink (accepted sk ++ p) (Some (k - length p)) (refusal sk))
      else (k, Some (refusal sk), mkSink (accepted sk ++ firstn k p) (Some 0) (refusal sk))
  end.

(** A raw sink that natively takes chunks ([MultiBufferWriter]). *)
Record MultiBufferWriter : Type := mkMBW {
  mbw_sink : rawsink
}.

Inductive io_Writer : Type :=
| plain_writer (sk : rawsink)
| chunked_writer (mw : MultiBufferWriter).

(** The type assertion [writer.(MultiBufferWriter)]. *)
Definition as_MultiBufferWriter (w : io_Writer) : option MultiBufferWriter :=
  match w with
  | plain_writer _ => None
  | chunked_writer mw => Some mw
  end.

Definition sink_of (w : io_Writer) : rawsink :=
  match w with
  | plain_writer sk => sk
  | chunked_writer mw => mbw_sink mw
  end.

(** [make([]byte, size)] with [size] a [uint32]. *)
Definition make_bytes (size : N) : list byte := repeat x00 (N.to_nat size).

(** [len(b)] of a slice, as a number. *)
Definition len (b : list byte) : N := N.of_nat (length b).

(** ** The adapter types

    The struct types the factories of [io.go] fill in.  Their fields that
    the factories do not set start at their zero value. *)

(** [readerAdpater{MultiBufferReader}] *)
Record readerAdpater : Type := mkReaderAdpater {
  ra_MultiBufferReader : MultiBufferReader
}.

(** [BytesToBufferReader{reader, buffer}]; [bbr_allocs] numbers the chunks
    the adapter creates. *)
Record BytesToBufferReader : Type := mkBytesToBufferReader {
  bbr_reader : io_Reader;
  bbr_buffer : list byte;
  bbr_allocs : nat
}.

(** [bufferToBytesReader{stream}], over any chunked reader [R];
    [btr_current] is the chunk held over between calls and [btr_freed] the
    chunks the adapter released. *)
Record bufferToBytesReader (R : Type) : Type := mkBufferToBytesReader {
  btr_stream : R;
  btr_current : option MultiBuffer;
  btr_freed : list nat
}.

(** [writerAdapter{writer}] *)
Record writerAdapter : Type := mkWriterAdapter {
  wa_writer : MultiBufferWriter
}.

(** [BufferToBytesWriter{writer}] *)
Record BufferToBytesWriter : Type := mkBufferToBytesWriter {
  bbw_writer : io_Writer
}.

(** [mergingWriter{writer, buffer}] *)
Record mergingWriter : Type := mkMergingWriter {
  mw_writer : io_Writer;
  mw_buffer : list byte
}.

(** [bytesToBufferWriter{writer}], over any chunked writer [W]. *)
Record bytesToBufferWriter (W : Type) : Type := mkBytesToBufferWriter {
  btw_writer : W
}.

(** A value of interface type [Reader] as the factories return it: a
    pointer to one of the two reader structs. *)
Inductive ReaderValue : Type :=
| of_readerAdpater (a : readerAdpater)
| of_BytesToBufferReader (a : BytesToBufferReader).

(** A value of interface type [Writer] as the factories return it. *)
Inductive WriterValue : Type :=
| of_writerAdapter (a : writerAdapter)
| of_BufferToBytesWriter (a : BufferToBytesWriter)
| of_mergingWriter (a : mergingWriter).

(** ** The factories of [io.go] *)

Definition NewReader (reader : io_Reader) : ReaderValue :=
  match as_MultiBufferReader reader with
  | Some mr => of_readerAdpater (mkReaderAdpater mr)
  | None =>
      of_BytesToBufferReader
        (mkBytesToBufferReader reader (make_bytes (32 * 1024)) 1)
  end.

Definition NewMergingReaderSize (reader : io_Reader) (size : N) : ReaderValue :=
  of_BytesToBufferReader (mkBytesToBufferReader reader (make_bytes size) 1).

Definition NewMergingReader (reader : io_Reader) : ReaderValue :=
  NewMergingReaderSize reader (32 * 1024).

Definition ToBytesReader {R : Type} (stream : R) : bufferToBytesReader R :=
  mkBufferToBytesReader stream None [].

Definition NewWriter (writer : io_Writer) : WriterValue :=
  match as_MultiBufferWriter writer with
  | Some mw => of_writerAdapter (mkWriterAdapter mw)
  | None => of_BufferToBytesWriter (mkBufferToBytesWriter writer)
  end.

Definition NewMergingWriterSize (writer : io_Writer) (size : N) : WriterValue :=
  of_mergingWriter (mkMergingWriter writer (make_bytes size)).

Definition NewMergingWriter (writer : io_Writer) : WriterValue :=
  NewMergingWriterSize writer 4096.

Definition ToBytesWriter {W : Type} (writer : W) : bytesToBufferWriter W :=
  mkBytesToBufferWriter writer.

(** What a factory result allocated as scratch space, and whether it is one
    of the two forwarding adapters. *)
Definition reader_scratch (r : ReaderValue) : option (list byte) :=
  match r with
  | of_readerAdpater _ => None
  | of_BytesToBufferReader a => Some (bbr_buffer a)
  end.

Definition writer_scratch (w : WriterValue) : option (list byte) :=
  match w with
  | of_writerAdapter _ => None
  | of_BufferToBytesWriter _ => None
  | of_mergingWriter a => Some (mw_buffer a)
  end.

Definition reader_is_passthrough (r : ReaderValue) : bool :=
  match r with
  | of_readerAdpater _ => true
  | of_BytesToBufferReader _ => false
  end.

Definition writer_is_passthrough (w : WriterValue) : bool :=
  match w with
  | of_writerAdapter _ => true
  | _ => false
  end.

Arguments make_bytes : simpl never.

(** ** The methods of the adapters

    The methods of the adapter structs live in other files of package
    [buf]; [io.go] only builds the structs. *)

(** Modelled from the spec: the error the stream-to-chunk reader reports.
    End-of-stream of the underlying read is reported as end-of-stream, any
    other failure as an error that wraps the underlying cause. *)
Definition report_read_error (e : error) : error :=
  if is_EOF e then io_EOF else Error "failed to read" (Some e).

(** Modelled from the spec: [BytesToBufferReader.Read] (the method is not
    in [io.go]).  One read into the private scratch buffer; exactly the
    bytes returned are wrapped into a new chunk; a zero-byte read that
    succeeds gives an empty chunk. *)
Definition BytesToBufferReader_Read (a : BytesToBufferReader)
  : MultiBuffer * option error * BytesToBufferReader :=
  let '(nBytes, err, buffer', reader') := io_Read (bbr_reader a) (bbr_buffer a) in
  match err with
  | Some e =>
      (nil_MultiBuffer, Some (report_read_error e),
       mkBytesToBufferReader reader' buffer' (bbr_allocs a))
  | None =>
      (mkMultiBuffer (bbr_allocs a) (firstn nBytes buffer'), None,
       mkBytesToBufferReader reader' buffer' (S (bbr_allocs a)))
  end.

(** Modelled from the spec: [readerAdpater.Read] (the method is not in
    [io.go]) simply forwards to the native chunked read. *)
Definition readerAdpater_Read (a : readerAdpater)
  : MultiBuffer * option error * readerAdpater :=
  let '(mb, err, mr') := ReadMultiBuffer (ra_MultiBufferReader a) in
  (mb, err, mkReaderAdpater mr').

#[export] Instance readerAdpater_Reader : Reader readerAdpater :=
  readerAdpater_Read.

#[export] Instance BytesToBufferReader_Reader : Reader BytesToBufferReader :=
  BytesToBufferReader_Read.

(** Method dispatch on a [Reader] interface value. *)
#[export] Instance ReaderValue_Reader : Reader ReaderValue :=
  fun r =>
    match r with
    | of_readerAdpater a =>
        let '(mb, err, a') := readerAdpater_Read a in (mb, err, of_readerAdpater a')
    | of_BytesToBufferReader a =>
        let '(mb, err, a') := BytesToBufferReader_Read a in
        (mb, err, of_BytesToBufferReader a')
    end.

Section ChunkToStream.

Context {R : Type} {HR : Reader R}.

(** Copy out of the held chunk [mb] into the caller's slice [b]: as many
    bytes as fit; the chunk is released once it is used up and held over
    otherwise. *)
Definition drain (stream : R) (freed : list nat) (mb : MultiBuffer) (b : list byte)
  : nat * option error * list byte * bufferToBytesReader R :=
  let n := Nat.min (length b) (length (mb_bytes mb)) in
  let b' := firstn n (mb_bytes mb) ++ skipn n b in
  match skipn n (mb_bytes mb) with
  | [] => (n, None, b', mkBufferToBytesReader stream None (freed ++ [mb_id mb]))
  | rest =>
      (n, None, b',
       mkBufferToBytesReader stream (Some (mkMultiBuffer (mb_id mb) rest)) freed)
  end.

(** Modelled from the spec: [bufferToBytesReader.Read] (the method is not
    in [io.go]).  It exposes a chunked producer as a sequential read: a
    partial chunk is held over across calls when the caller asks for less
    than the chunk has left, and a chunk is released only once fully
    consumed. *)
Definition bufferToBytesReader_Read (r : bufferToBytesReader R) (b : list byte)
  : nat * option error * list byte * bufferToBytesReader R :=
  match btr_current r with
  | Some mb => drain (btr_stream r) (btr_freed r) mb b
  | None =>
      let '(mb, err, stream') := Read (btr_stream r) in
      match err with
      | Some e => (0, Some e, b, mkBufferToBytesReader stream' None (btr_freed r))
      | None => drain stream' (btr_freed r) mb b
      end
  end.

End ChunkToStream.

#[export] Instance bufferToBytesReader_ByteReader {R : Type} {HR : Reader R}
  : ByteReader (bufferToBytesReader R) := bufferToBytesReader_Read.

Section ReadFull.

Context {S : Type} {HS : ByteReader S}.

(** The loop of [io.ReadAtLeast(r, buf, len(buf))]:
    [for n < min && err == nil { nn, err = r.Read(buf[n:]); n += nn }].
    [None] when the calls allowed are used up first. *)
Fixpoint ReadFull_loop (fuel : nat) (r : S) (buf : list byte) (n : nat)
  : option (nat * option error * list byte * S) :=
  if n <? length buf then
    match fuel with
    | O => None
    | Datatypes.S fuel' =>
        let '(nn, err, rest, r') := io_Read r (skipn n buf) in
        let buf' := firstn n buf ++ rest in
        match err with
        | None => ReadFull_loop fuel' r' buf' (n + nn)
        | Some e => Some (n + nn, Some e, buf', r')
        end
    end
  else Some (n, None, buf, r).

(** [io.ReadFull(r, buf)] with [buf] a fresh slice of [size] bytes: the
    bytes read and the error. *)
Definition ReadFull (fuel : nat) (r : S) (size : nat)
  : option (list byte * option error * S) :=
  match ReadFull_loop fuel r (repeat x00 size) 0 with
  | None => None
  | Some (n, err, buf, r') =>
      let err' :=
        if size <=? n then None
        else match err with
             | Some e => if (0 <? n) && is_EOF e then Some io_ErrUnexpectedEOF
                         else Some e
             | None => None
             end in
      Some (firstn n buf, err', r')
  end.

End ReadFull.

(** [Write(p)] on an [io.Writer] value. *)
Definition io_Write (w : io_Writer) (p : list byte) : nat * option error * io_Writer :=
  match w with
  | plain_writer sk =>
      let '(n, err, sk') := raw_Write sk p in (n, err, plain_writer sk')
  | chunked_writer mw =>
      let '(n, err, sk') := raw_Write (mbw_sink mw) p in
      (n, err, chunked_writer (mkMBW sk'))
  end.

(** Modelled from the spec: [BufferToBytesWriter.Write] (the method is not
    in [io.go]).  The chunk's bytes go to the underlying stream in one
    operation, then the chunk is released regardless of outcome; an
    underlying write that does not cover the full chunk is an error. *)
Definition BufferToBytesWriter_Write (a : BufferToBytesWriter) (mb : MultiBuffer)
  : option error * list nat * BufferToBytesWriter :=
  let '(n, err, w') := io_Write (bbw_writer a) (mb_bytes mb) in
  let err' := match err with
              | Some e => Some e
              | None => if n <? length (mb_bytes mb) then Some io_ErrShortWrite
                        else None
              end in
  (err', [mb_id mb], mkBufferToBytesWriter w').

#[export] Instance BufferToBytesWriter_Writer : Writer BufferToBytesWriter :=
  BufferToBytesWriter_Write.

(** [WriteMultiBuffer(MultiBuffer) (int, error)] of a native chunk sink:
    it takes the chunk over, hands its bytes to the sink and releases it. *)
Definition WriteMultiBuffer (mw : MultiBufferWriter) (mb : MultiBuffer)
  : nat * option error * list nat * MultiBufferWriter :=
  let '(n, err, sk') := raw_Write (mbw_sink mw) (mb_bytes mb) in
  (n, err, [mb_id mb], mkMBW sk').

(** Modelled from the spec: [writerAdapter.Write] (the method is not in
    [io.go]) simply forwards to the native chunked write. *)
Definition writerAdapter_Write (a : writerAdapter) (mb : MultiBuffer)
  : option error * list nat * writerAdapter :=
  let '(_, err, released, mw') := WriteMultiBuffer (wa_writer a) mb in
  (err, released, mkWriterAdapter mw').

#[export] Instance writerAdapter_Writer : Writer writerAdapter :=
  writerAdapter_Write.

(* ================================================================== *)
(** * Part III : concrete sources, sinks and timers                    *)
(* ================================================================== *)

(** A source that replays a list of results, one per [Read], and reports
    end-of-stream once the list is used up. *)
Definition scripted : Type := list (MultiBuffer * option error).

#[export] Instance scripted_Reader : Reader scripted :=
  fun r =>
    match r with
    | [] => (nil_MultiBuffer, Some io_EOF, [])
    | (mb, err) :: rest => (mb, err, rest)
    end.

(** A timer that counts its marks. *)
Definition counter : Type := nat.

#[export] Instance counter_ActivityTimer : ActivityTimer counter := Datatypes.S.

(** Where a copy starts: nothing has happened yet. *)
Definition start {R W T : Type} (t : T) (r : R) (w : W) : state R W T :=
  mkState r w t [].

(** Some bytes and chunks to run the code on. *)
Definition hello : list byte := [x68; x65; x6c; x6c; x6f].

Definition chunk_a : MultiBuffer := mkMultiBuffer 1 [x68; x65].
Definition chunk_b : MultiBuffer := mkMultiBuffer 2 [].
Definition chunk_c : MultiBuffer := mkMultiBuffer 3 [x6c; x6c; x6f].

(** Three chunks, the second one empty, then an error that wraps
    end-of-stream. *)
Definition wrapped_EOF : error := Error "connection ends" (Some io_EOF).

Definition three_chunks : scripted :=
  [(chunk_a, None); (chunk_b, None); (chunk_c, None);
   (nil_MultiBuffer, Some wrapped_EOF)].

(** Two chunks, then a read that times out. *)
Definition two_chunks_then_timeout : scripted :=
  [(chunk_a, None); (chunk_b, None); (nil_MultiBuffer, Some ErrReadTimeout)].

(** One chunk of three bytes. *)
Definition one_big_chunk : scripted := [(chunk_c, None)].

(** A pass-through writer over a raw sink that takes every byte. *)
Definition open_sink : BufferToBytesWriter :=
  mkBufferToBytesWriter (plain_writer (mkSink [] None (foreign "closed pipe"))).

(** A pass-through writer over a raw sink that takes two bytes and then
    fails with [e]. *)
Definition failing_sink (e : error) : BufferToBytesWriter :=
  mkBufferToBytesWriter (plain_writer (mkSink [] (Some 2) e)).

(** A raw source of the bytes of [hello], delivered at most two bytes a
    read for the first two reads, then end-of-stream. *)
Definition hello_stream : rawstream := mkRaw hello [2; 0; 2] io_EOF false.

(** A raw source of the bytes of [hello] that delivers two bytes, and then
    the other three together with end-of-stream. *)
Definition eager_hello : rawstream := mkRaw hello [2] io_EOF true.

(** A raw source that natively hands out chunks, and a raw sink that
    natively takes them. *)
Definition native_hello : MultiBufferReader := mkMBR hello_stream 1.

Definition native_sink : MultiBufferWriter :=
  mkMBW (mkSink [] None (foreign "closed pipe")).

(** ** What a reader stands for

    A reader of either kind stands for the bytes [data] it has yet to
    deliver, in order, and for a bound [budget] on the number of reads that
    may still come back empty-handed. *)

(** A byte-level read into a non-empty slice [p], seen against [data]:
    a successful read moves a prefix of [data] to the front of [p]; a read
    that fails moves all that was left of [data] (possibly nothing) to the
    front of [p], and leaves a reader that stands for no more bytes. *)
Definition delivers_bytes {S : Type} (rep : S -> list byte -> nat -> Prop)
    (data : list byte) (budget : nat) (p : list byte)
    (res : nat * option error * list byte * S) : Prop :=
  let '(nn, err, p', r') := res in
  match err with
  | None =>
      nn <= length p /\ nn <= length data /\
      p' = firstn nn data ++ skipn nn p /\
      exists budget',
        rep r' (skipn nn data) budget' /\
        budget' <= budget /\ (nn = 0 -> budget' < budget)
  | Some _ =>
      nn = length data /\ nn <= length p /\
      p' = firstn nn data ++ skipn nn p /\
      exists budget', rep r' [] budget' /\ budget' <= budget
  end.

(** A chunk-level read, seen against [data]: a successful read hands out a
    prefix of [data] as a chunk; a read fails only once [data] is used
    up, and leaves a reader that stands for no more bytes. *)
Definition delivers_chunk {R : Type} (rep : R -> list byte -> nat -> Prop)
    (data : list byte) (budget : nat)
    (res : MultiBuffer * option error * R) : Prop :=
  let '(mb, err, r') := res in
  match err with
  | None =>
      length (mb_bytes mb) <= length data /\
      mb_bytes mb = firstn (length (mb_bytes mb)) data /\
      exists budget',
        rep r' (skipn (length (mb_bytes mb)) data) budget' /\
        budget' <= budget /\ (length (mb_bytes mb) = 0 -> budget' < budget)
  | Some _ =>
      data = [] /\ exists budget', rep r' [] budget' /\ budget' <= budget
  end.

(** A raw handle stands for the pending bytes of its stream. *)
Definition raw_rep (h : io_Reader) (data : list byte) (budget : nat) : Prop :=
  data = pending (stream_of h) /\ budget = length (sched (stream_of h)).

(** A factory-made chunked reader stands for the pending bytes of the
    stream underneath; the scratch buffer of the copying adapter has room
    for at least one byte, and the stream under it reports its error only
    after its last bytes (the adapter drops what comes with an error). *)
Definition chunked_rep (r : ReaderValue) (data : list byte) (budget : nat) : Prop :=
  match r with
  | of_readerAdpater a =>
      raw_rep (chunked_reader (ra_MultiBufferReader a)) data budget
  | of_BytesToBufferReader a =>
      0 < length (bbr_buffer a) /\
      eager (stream_of (bbr_reader a)) = false /\
      raw_rep (bbr_reader a) data budget
  end.

(** The bytes of the chunk held over. *)
Definition held (current : option MultiBuffer) : list byte :=
  match current with
  | Some mb => mb_bytes mb
  | None => []
  end.

(** The chunk-to-stream reader stands for the bytes it holds over followed
    by what the chunked reader underneath stands for; a chunk held over is
    never empty. *)
Definition flat_rep {R : Type} (rep : R -> list byte -> nat -> Prop)
    (r : bufferToBytesReader R) (data : list byte) (budget : nat) : Prop :=
  (forall mb, btr_current r = Some mb -> mb_bytes mb <> []) /\
  exists rest,
    data = held (btr_current r) ++ rest /\ rep (btr_stream r) rest budget.

(** ** What a trace says about the chunks

    The chunks the reads handed out, the chunks handed to the sink, and
    the chunks the copy loop itself released, each in program order. *)
Definition read_chunks (tr : list event) : list MultiBuffer :=
  flat_map (fun e => match e with EvRead mb None => [mb] | _ => [] end) tr.

Definition written_chunks (tr : list event) : list MultiBuffer :=
  flat_map (fun e => match e with EvWrite mb => [mb] | _ => [] end) tr.

Definition loop_released (tr : list event) : list nat :=
  flat_map (fun e => match e with EvRelease Loop id => [id] | _ => [] end) tr.

Definition nonempty (mb : MultiBuffer) : bool := negb (IsEmpty mb).

(** A trace in which the sink was handed exactly the non-empty chunks that
    were read, in the order they were read. *)
Definition relayed_in_order (tr : list event) : Prop :=
  written_chunks tr = filter nonempty (read_chunks tr).

(** A trace in which the copy loop released exactly the empty chunks that
    were read, in the order they were read. *)
Definition released_the_empty (tr : list event) : Prop :=
  loop_released tr = map mb_id (filter IsEmpty (read_chunks tr)).

(** A state, reached from a timer [t0], in which the timer was marked once
    for each read that succeeded. *)
Definition marked_per_read {R W T : Type} {HT : ActivityTimer T}
    (t0 : T) (s : state R W T) : Prop :=
  updates (trace s) = reads_ok (trace s) /\
  timer s = Nat.iter (reads_ok (trace s)) Update t0.

(** ** Suppliers ([ReadFrom], [ReadFullFrom])

    A [Supplier] is a [func([]byte) (int, error)].  The two functions of
    [io.go] that make one close over a reader; the supplier is the partial
    application to the reader, and a call gives the count, the error, the
    slice after the call and the reader after the call. *)

(** How a call that may panic or loop ends. *)
Inductive call (A : Type) : Type :=
| Returned (a : A)
| Panicked
| OutOfFuel.

Arguments Panicked {A}.
Arguments OutOfFuel {A}.

Section Suppliers.

Context {B : Type} {HB : ByteReader B}.

(** [io.ReadFull(r, buf)], that is [io.ReadAtLeast(r, buf, len(buf))], on
    a slice that is given: the loop, then
    [if n >= min { err = nil } else if n > 0 && err == EOF
       { err = ErrUnexpectedEOF }]. *)
Definition io_ReadFull (fuel : nat) (r : B) (buf : list byte)
  : option (nat * option error * list byte * B) :=
  match ReadFull_loop fuel r buf 0 with
  | None => None
  | Some (n, err, buf', r') =>
      let err' :=
        if length buf <=? n then None
        else match err with
             | Some e => if (0 <? n) && is_EOF e then Some io_ErrUnexpectedEOF
                         else Some e
             | None => None
             end in
      Some (n, err', buf', r')
  end.

(** [ReadFrom(reader)]: [func(b []byte) (int, error) { return reader.Read(b) }] *)
Definition ReadFrom (reader : B) (b : list byte)
  : nat * option error * list byte * B :=
  io_Read reader b.

(** [ReadFullFrom(reader, size)]:
    [func(b []byte) (int, error) { return io.ReadFull(reader, b[:size]) }].
    The slice [b] has its capacity equal to its length, so that [b[:size]]
    panics when [size] is negative or exceeds [len(b)]; what is read into
    [b[:size]] lands in [b]. *)
Definition ReadFullFrom (fuel : nat) (reader : B) (size : Z) (b : list byte)
  : call (nat * option error * list byte * B) :=
  if ((size <? 0) || (Z.of_nat (length b) <? size))%Z then Panicked
  else
    let k := Z.to_nat size in
    match io_ReadFull fuel reader (firstn k b) with
    | None => OutOfFuel
    | Some (n, err, sub, reader') => Returned (n, err, sub ++ skipn k b, reader')
    end.

End Suppliers.

(** ** Reading in several steps *)

Section ReadSequence.

Context {B : Type} {HB : ByteReader B}.

(** One [io.ReadFull] after the other on the same reader, for slices of
    the sizes [sizes], whatever the errors: the bytes each call read. *)
Fixpoint ReadFull_seq (fuel : nat) (r : B) (sizes : list nat)
  : option (list (list byte)) :=
  match sizes with
  | [] => Some []
  | size :: rest =>
      match ReadFull fuel r size with
      | None => None
      | Some (bytes, _, r') => option_map (cons bytes) (ReadFull_seq fuel r' rest)
      end
  end.

End ReadSequence.

(** The bytes [data] cut into consecutive pieces of the sizes [sizes]
    (the pieces come out short, then empty, once [data] is used up). *)
Fixpoint chop (sizes : list nat) (data : list byte) : list (list byte) :=
  match sizes with
  | [] => []
  | size :: rest => firstn size data :: chop rest (skipn size data)
  end.

(** A chunk that is not empty, handed out together with an error. *)
Definition chunk_with_error : scripted :=
  [(chunk_a, None); (chunk_c, Some (foreign "reset by peer")); (chunk_a, None)].

(* ================================================================== *)
(** * Part IV : lemmas and theorems                                    *)
(* ================================================================== *)

Unset Implicit Arguments.

(** ** Traces *)

Lemma releases_app (id : nat) (tr1 tr2 : list event) :
  releases id (tr1 ++ tr2) = releases id tr1 + releases id tr2.
Proof.
  unfold releases. rewrite filter_app, length_app. reflexivity.
Qed.

Lemma releases_by_sink (id : nat) (released : list nat) :
  releases id (map (EvRelease Sink) released) = count_occ Nat.eq_dec released id.
Proof.
  unfold releases.
  induction released as [|i released IH]; cbn [map filter is_release_of count_occ].
  - reflexivity.
  - destruct (Nat.eq_dec i id) as [Heq|Hne].
    + apply Nat.eqb_eq in Heq. rewrite Heq. cbn [length]. now rewrite IH.
    + apply Nat.eqb_neq in Hne. rewrite Hne. exact IH.
Qed.

Lemma updates_by_sink (released : list nat) :
  updates (map (EvRelease Sink) released) = 0.
Proof.
  unfold updates. induction released as [|i released IH]; [reflexivity|exact IH].
Qed.

Lemma updates_app (tr1 tr2 : list event) :
  updates (tr1 ++ tr2) = updates tr1 + updates tr2.
Proof.
  unfold updates. rewrite filter_app, length_app. reflexivity.
Qed.

Lemma reads_ok_app (tr1 tr2 : list event) :
  reads_ok (tr1 ++ tr2) = reads_ok tr1 + reads_ok tr2.
Proof.
  unfold reads_ok. rewrite filter_app, length_app. reflexivity.
Qed.

Lemma reads_ok_by_sink (released : list nat) :
  reads_ok (map (EvRelease Sink) released) = 0.
Proof.
  unfold reads_ok. induction released as [|i released IH]; [reflexivity|exact IH].
Qed.

(** ** The copy loop, pass by pass *)

Section CopyEngineFacts.

Context {R W T : Type}.
Context {HR : Reader R} {HW : Writer W} {HT : ActivityTimer T}.

Implicit Types (s : state R W T) (mb : MultiBuffer) (e : error).

Ltac unfold_state :=
  unfold Release, emit; cbn beta iota zeta delta [reader writer timer trace].

Ltac run_body H := unfold loop_body; rewrite H; unfold_state.

Ltac same_trace := unfold_state; rewrite <- ?app_assoc; reflexivity.

(** The source reports an error: the pass returns it at once. *)
Lemma loop_body_read_error s mb e r' :
  Read (reader s) = (mb, Some e, r') ->
  loop_body s =
    Return (Some e)
      (mkState r' (writer s) (timer s) (trace s ++ [EvRead mb (Some e)])).
Proof.
  intros Hread. run_body Hread. reflexivity.
Qed.

(** The source hands out an empty chunk. *)
Lemma loop_body_empty s mb r' :
  Read (reader s) = (mb, None, r') ->
  IsEmpty mb = true ->
  loop_body s =
    Continue
      (mkState r' (writer s) (Update (timer s))
         (trace s ++ [EvRead mb None; EvUpdate; EvIsEmpty mb;
                      EvRelease Loop (mb_id mb)])).
Proof.
  intros Hread Hempty. run_body Hread. rewrite Hempty. same_trace.
Qed.

(** The sink takes the chunk. *)
Lemma loop_body_write_ok s mb r' released w' :
  Read (reader s) = (mb, None, r') ->
  IsEmpty mb = false ->
  Write (writer s) mb = (None, released, w') ->
  loop_body s =
    Continue
      (mkState r' w' (Update (timer s))
         (trace s ++ [EvRead mb None; EvUpdate; EvIsEmpty mb; EvWrite mb]
                  ++ map (EvRelease Sink) released)).
Proof.
  intros Hread Hempty Hwrite. run_body Hread. rewrite Hempty, Hwrite.
  same_trace.
Qed.

(** The sink fails on the chunk. *)
Lemma loop_body_write_error s mb r' e released w' :
  Read (reader s) = (mb, None, r') ->
  IsEmpty mb = false ->
  Write (writer s) mb = (Some e, released, w') ->
  loop_body s =
    Return (Some e)
      (mkState r' w' (Update (timer s))
         (trace s ++ [EvRead mb None; EvUpdate; EvIsEmpty mb; EvWrite mb]
                  ++ map (EvRelease Sink) released
                  ++ [EvRelease Loop (mb_id mb)])).
Proof.
  intros Hread Hempty Hwrite. run_body Hread. rewrite Hempty, Hwrite.
  same_trace.
Qed.

(** ** Whole runs *)

Lemma copyInternal_passes k s sk fuel :
  passes k s = Some sk ->
  copyInternal (k + fuel) s = copyInternal fuel sk.
Proof.
  revert s. induction k as [|k IH]; intros s Hk; cbn [passes] in Hk.
  - injection Hk as ->. reflexivity.
  - cbn [Nat.add copyInternal].
    destruct (loop_body s) as [s1|err s1]; [|discriminate].
    now apply IH.
Qed.

Lemma copyInternal_return_at k s sk err s' fuel :
  passes k s = Some sk ->
  loop_body sk = Return err s' ->
  k < fuel ->
  copyInternal fuel s = Some (err, s').
Proof.
  intros Hk Hret Hfuel.
  replace fuel with (k + S (fuel - S k)) by lia.
  rewrite copyInternal_passes with (sk := sk) by exact Hk.
  cbn [copyInternal]. now rewrite Hret.
Qed.

(** More passes allowed never change a result already reached. *)
Lemma copyInternal_more_fuel fuel fuel' s res :
  copyInternal fuel s = Some res ->
  fuel <= fuel' ->
  copyInternal fuel' s = Some res.
Proof.
  revert fuel' s. induction fuel as [|fuel IH]; intros fuel' s Hrun Hle.
  - discriminate.
  - destruct fuel' as [|fuel']; [lia|].
    cbn [copyInternal] in *.
    destruct (loop_body s) as [s1|err s1]; [|exact Hrun].
    apply IH; [exact Hrun|lia].
Qed.

(** What [Copy] makes of the result of [copyInternal]. *)
Lemma Copy_of_error fuel s e s' :
  copyInternal fuel s = Some (Some e, s') ->
  Copy fuel s = Some (if is_EOF (Cause e) then None else Some e, s').
Proof.
  intros Hrun. unfold Copy. rewrite Hrun.
  now destruct (is_EOF (Cause e)).
Qed.

(** A source that hands out [mbs] and then reports [e], over a sink that
    takes them, gets the loop through [length mbs] passes, to a state
    whose next read reports [e]. *)
Lemma passes_of_reads mbs : forall s e,
  reads_then (reader s) mbs e ->
  writes_ok (writer s) mbs ->
  exists sk mb r',
    passes (length mbs) s = Some sk /\
    Read (reader sk) = (mb, Some e, r').
Proof.
  induction mbs as [|mb0 mbs IH]; intros s e Hreads Hwrites.
  - destruct Hreads as (mb & r' & Hread). now exists s, mb, r'.
  - destruct Hreads as (r' & Hread & Hrest).
    cbn [writes_ok] in Hwrites. cbn [length passes].
    destruct (IsEmpty mb0) eqn:Hempty.
    + rewrite loop_body_empty with (mb := mb0) (r' := r') by assumption.
      apply IH; assumption.
    + destruct Hwrites as (released & w' & Hwrite & Hwrites).
      rewrite loop_body_write_ok with (1 := Hread) (3 := Hwrite) by assumption.
      apply IH; assumption.
Qed.

(** Over any pass the timer marks and the successful reads grow by the
    same amount. *)
Lemma loop_body_marks_reads s :
  updates (trace (state_of (loop_body s))) + reads_ok (trace s) =
  updates (trace s) + reads_ok (trace (state_of (loop_body s))).
Proof.
  destruct (Read (reader s)) as [[mb [e|]] r'] eqn:Hread.
  - rewrite (loop_body_read_error s mb e r' Hread). cbn [state_of trace].
    rewrite updates_app, reads_ok_app. cbn. lia.
  - destruct (IsEmpty mb) eqn:Hempty.
    + rewrite (loop_body_empty s mb r' Hread Hempty). cbn [state_of trace].
      rewrite updates_app, reads_ok_app. cbn. lia.
    + destruct (Write (writer s) mb) as [[[e|] released] w'] eqn:Hwrite.
      * rewrite (loop_body_write_error s mb r' e released w' Hread Hempty Hwrite).
        cbn [state_of trace].
        rewrite !updates_app, !reads_ok_app, updates_by_sink, reads_ok_by_sink.
        cbn. lia.
      * rewrite (loop_body_write_ok s mb r' released w' Hread Hempty Hwrite).
        cbn [state_of trace].
        rewrite !updates_app, !reads_ok_app, updates_by_sink, reads_ok_by_sink.
        cbn. lia.
Qed.

(** Over a whole run of [copyInternal] the timer is marked as many times
    as reads succeeded. *)
Lemma copyInternal_marks_reads fuel : forall s err s',
  copyInternal fuel s = Some (err, s') ->
  updates (trace s') + reads_ok (trace s) =
  updates (trace s) + reads_ok (trace s').
Proof.
  induction fuel as [|fuel IH]; intros s err s' Hrun; [discriminate|].
  cbn [copyInternal] in Hrun.
  pose proof (loop_body_marks_reads s) as Hpass.
  destruct (loop_body s) as [s1|err1 s1]; cbn [state_of] in Hpass.
  - specialize (IH s1 err s' Hrun). lia.
  - injection Hrun as <- <-. exact Hpass.
Qed.

End CopyEngineFacts.

(** ** The claims about the copy engine *)

Section CopyEngineClaims.

Context {R W T : Type}.
Context {HR : Reader R} {HW : Writer W} {HT : ActivityTimer T}.

(** C1.  Whenever the source hands out some chunks [mbs] (none, one or
    many), which the sink takes, and then reports an error whose root
    cause is end-of-stream, [Copy] returns nil, provided the loop is
    allowed more than [length mbs] passes. *)
Theorem Copy_end_of_stream_is_success :
  forall (s : state R W T) (mbs : list MultiBuffer) (e : error),
    reads_then (reader s) mbs e ->
    is_EOF (Cause e) = true ->
    writes_ok (writer s) mbs ->
    forall fuel, length mbs < fuel ->
      exists s', Copy fuel s = Some (None, s').
Proof.
  intros s mbs e Hreads Heof Hwrites fuel Hfuel.
  destruct (passes_of_reads mbs s e Hreads Hwrites) as (sk & mb & r' & Hk & Hread).
  pose proof (loop_body_read_error sk mb e r' Hread) as Hret.
  pose proof (copyInternal_return_at (length mbs) s sk _ _ fuel Hk Hret Hfuel) as Hrun.
  eexists. rewrite (Copy_of_error fuel s e _ Hrun), Heof. reflexivity.
Qed.

(** C2 (amended).  When, after [k] passes, the sink fails on a non-empty
    chunk with an error [e] whose root cause is not end-of-stream, [Copy]
    ends in that very pass (nothing is read or written after the failed
    write) and returns [e] itself. *)
Theorem Copy_returns_write_error :
  forall (k : nat) (s sk : state R W T) (mb : MultiBuffer) (r' : R)
         (e : error) (released : list nat) (w' : W),
    passes k s = Some sk ->
    Read (reader sk) = (mb, None, r') ->
    IsEmpty mb = false ->
    Write (writer sk) mb = (Some e, released, w') ->
    is_EOF (Cause e) = false ->
    forall fuel, k < fuel ->
      Copy fuel s =
        Some (Some e,
              mkState r' w' (Update (timer sk))
                (trace sk ++ [EvRead mb None; EvUpdate; EvIsEmpty mb; EvWrite mb]
                          ++ map (EvRelease Sink) released
                          ++ [EvRelease Loop (mb_id mb)])).
Proof.
  intros k s sk mb r' e released w' Hk Hread Hempty Hwrite Hcause fuel Hfuel.
  rewrite Copy_of_error with (e := e)
    (s' := mkState r' w' (Update (timer sk))
             (trace sk ++ [EvRead mb None; EvUpdate; EvIsEmpty mb; EvWrite mb]
                       ++ map (EvRelease Sink) released
                       ++ [EvRelease Loop (mb_id mb)])).
  - now rewrite Hcause.
  - eapply copyInternal_return_at; [exact Hk| |exact Hfuel].
    now apply loop_body_write_error.
Qed.

(** C3 (amended).  In a pass whose write fails, the copy loop itself
    releases the chunk exactly once, after the write has returned; the
    total number of releases of the chunk in that pass is therefore one
    more than the number of times the sink released it inside [Write]. *)
Theorem write_error_release_count :
  forall (s : state R W T) (mb : MultiBuffer) (r' : R)
         (e : error) (released : list nat) (w' : W),
    Read (reader s) = (mb, None, r') ->
    IsEmpty mb = false ->
    Write (writer s) mb = (Some e, released, w') ->
    exists s',
      loop_body s = Return (Some e) s' /\
      trace s' = trace s
                 ++ [EvRead mb None; EvUpdate; EvIsEmpty mb; EvWrite mb]
                 ++ map (EvRelease Sink) released
                 ++ [EvRelease Loop (mb_id mb)] /\
      releases (mb_id mb) (trace s') =
        releases (mb_id mb) (trace s)
        + count_occ Nat.eq_dec released (mb_id mb) + 1.
Proof.
  intros s mb r' e released w' Hread Hempty Hwrite.
  eexists. split; [eapply loop_body_write_error; eassumption|].
  cbn [trace]. split; [reflexivity|].
  rewrite !releases_app, releases_by_sink.
  unfold releases at 2 3. cbn [filter is_release_of length].
  rewrite Nat.eqb_refl. cbn [length]. lia.
Qed.

(** C4.  When, after [k] passes, the read of the source reports
    [ErrReadTimeout], [Copy] ends there and returns [ErrReadTimeout]. *)
Theorem Copy_propagates_read_timeout :
  forall (k : nat) (s sk : state R W T) (mb : MultiBuffer) (r' : R),
    passes k s = Some sk ->
    Read (reader sk) = (mb, Some ErrReadTimeout, r') ->
    forall fuel, k < fuel ->
      Copy fuel s =
        Some (Some ErrReadTimeout,
              mkState r' (writer sk) (timer sk)
                (trace sk ++ [EvRead mb (Some ErrReadTimeout)])).
Proof.
  intros k s sk mb r' Hk Hread fuel Hfuel.
  rewrite Copy_of_error with (e := ErrReadTimeout)
    (s' := mkState r' (writer sk) (timer sk)
             (trace sk ++ [EvRead mb (Some ErrReadTimeout)])).
  - reflexivity.
  - eapply copyInternal_return_at; [exact Hk| |exact Hfuel].
    now apply loop_body_read_error.
Qed.

(** C5.  In a pass whose read succeeds, the timer is marked exactly once:
    the mark comes right after the read and before the emptiness test
    (and so before any write), whether or not the chunk is empty, and no
    other mark follows in that pass. *)
Theorem timer_marked_once_per_read :
  forall (s : state R W T) (mb : MultiBuffer) (r' : R),
    Read (reader s) = (mb, None, r') ->
    exists rest,
      trace (state_of (loop_body s)) =
        trace s ++ [EvRead mb None; EvUpdate; EvIsEmpty mb] ++ rest /\
      updates rest = 0 /\
      timer (state_of (loop_body s)) = Update (timer s).
Proof.
  intros s mb r' Hread.
  destruct (IsEmpty mb) eqn:Hempty.
  - rewrite loop_body_empty with (1 := Hread) by exact Hempty.
    exists [EvRelease Loop (mb_id mb)]. repeat split.
  - destruct (Write (writer s) mb) as [[[e|] released] w'] eqn:Hwrite.
    + rewrite loop_body_write_error with (1 := Hread) (3 := Hwrite) by exact Hempty.
      exists (EvWrite mb :: map (EvRelease Sink) released
                ++ [EvRelease Loop (mb_id mb)]).
      cbn [state_of trace timer]. repeat split.
      change (EvWrite mb :: map (EvRelease Sink) released
                ++ [EvRelease Loop (mb_id mb)])
        with ([EvWrite mb] ++ map (EvRelease Sink) released
                ++ [EvRelease Loop (mb_id mb)]).
      now rewrite !updates_app, updates_by_sink.
    + rewrite loop_body_write_ok with (1 := Hread) (3 := Hwrite) by exact Hempty.
      exists (EvWrite mb :: map (EvRelease Sink) released).
      cbn [state_of trace timer]. repeat split.
      change (EvWrite mb :: map (EvRelease Sink) released)
        with ([EvWrite mb] ++ map (EvRelease Sink) released).
      now rewrite !updates_app, updates_by_sink.
Qed.

(** C6.  A pass whose read hands out an empty chunk releases that chunk
    and falls through to the next pass: the sink is not called (it is
    left as it was and the pass records no write). *)
Theorem empty_chunk_released_not_written :
  forall (s : state R W T) (mb : MultiBuffer) (r' : R),
    Read (reader s) = (mb, None, r') ->
    IsEmpty mb = true ->
    exists s',
      loop_body s = Continue s' /\
      writer s' = writer s /\
      trace s' = trace s ++ [EvRead mb None; EvUpdate; EvIsEmpty mb;
                             EvRelease Loop (mb_id mb)] /\
      releases (mb_id mb) (trace s') = releases (mb_id mb) (trace s) + 1.
Proof.
  intros s mb r' Hread Hempty.
  eexists. split; [eapply loop_body_empty; eassumption|].
  cbn [writer trace]. repeat split.
  rewrite releases_app. unfold releases at 2.
  cbn [filter is_release_of]. now rewrite Nat.eqb_refl.
Qed.

(** C10.  When, after [k] passes, the sink fails on a non-empty chunk
    with an error whose root cause is end-of-stream, [Copy] returns
    nil. *)
Theorem Copy_write_end_of_stream_is_success :
  forall (k : nat) (s sk : state R W T) (mb : MultiBuffer) (r' : R)
         (e : error) (released : list nat) (w' : W),
    passes k s = Some sk ->
    Read (reader sk) = (mb, None, r') ->
    IsEmpty mb = false ->
    Write (writer sk) mb = (Some e, released, w') ->
    is_EOF (Cause e) = true ->
    forall fuel, k < fuel ->
      Copy fuel s =
        Some (None,
              mkState r' w' (Update (timer sk))
                (trace sk ++ [EvRead mb None; EvUpdate; EvIsEmpty mb; EvWrite mb]
                          ++ map (EvRelease Sink) released
                          ++ [EvRelease Loop (mb_id mb)])).
Proof.
  intros k s sk mb r' e released w' Hk Hread Hempty Hwrite Hcause fuel Hfuel.
  rewrite Copy_of_error with (e := e)
    (s' := mkState r' w' (Update (timer sk))
             (trace sk ++ [EvRead mb None; EvUpdate; EvIsEmpty mb; EvWrite mb]
                       ++ map (EvRelease Sink) released
                       ++ [EvRelease Loop (mb_id mb)])).
  - now rewrite Hcause.
  - eapply copyInternal_return_at; [exact Hk| |exact Hfuel].
    now apply loop_body_write_error.
Qed.

End CopyEngineClaims.

(** ** The copy engine at work *)

(** The scenario of the spec: the source holds [hello] and then ends, the
    sink is the pass-through writer over an accumulating buffer. *)
Example Copy_hello :
  option_map (fun res => (fst res, accepted (sink_of (bbw_writer (writer (snd res))))))
    (Copy 6 (start (0 : counter) (NewReader (plain_reader hello_stream)) open_sink))
  = Some (None, hello).
Proof. vm_compute. reflexivity. Qed.

Lemma Copy_end_of_stream_is_success_witness :
  is_EOF (Cause wrapped_EOF) = true /\
  exists s', Copy 4 (start (0 : counter) three_chunks open_sink) = Some (None, s').
Proof.
  split; [reflexivity|].
  apply (@Copy_end_of_stream_is_success _ _ _ _ _ _
           (start (0 : counter) three_chunks open_sink)
           [chunk_a; chunk_b; chunk_c] wrapped_EOF).
  - cbn. repeat (eexists; try split; try reflexivity).
  - reflexivity.
  - cbn. repeat (eexists; try split; try reflexivity).
  - cbn. lia.
Defined.

(** C2, as stated, fails: the sink fails on the non-empty [chunk_c] with
    [io.EOF], and [Copy] returns nil instead of that error. *)
Lemma Copy_write_error_counterexample :
  Read (reader (start (0 : counter) one_big_chunk (failing_sink io_EOF)))
    = (chunk_c, None, []) /\
  IsEmpty chunk_c = false /\
  fst (fst (Write (failing_sink io_EOF) chunk_c)) = Some io_EOF /\
  option_map fst (Copy 1 (start (0 : counter) one_big_chunk (failing_sink io_EOF)))
    = Some None.
Proof. repeat split. Qed.

Lemma Copy_returns_write_error_witness :
  exists s',
    Copy 3 (start (0 : counter) three_chunks (failing_sink (foreign "broken pipe")))
    = Some (Some (foreign "broken pipe"), s').
Proof.
  eexists.
  eapply (@Copy_returns_write_error _ _ _ _ _ _ 2).
  - vm_compute. reflexivity.
  - reflexivity.
  - reflexivity.
  - vm_compute. reflexivity.
  - reflexivity.
  - lia.
Defined.

(** C3, as stated, fails: the pass-through writer releases the chunk it
    fails on, the copy loop releases it again, and the chunk ends up
    released twice. *)
Lemma write_error_release_counterexample :
  option_map (fun res => (fst res, releases (mb_id chunk_c) (trace (snd res))))
    (copyInternal 1
       (start (0 : counter) one_big_chunk (failing_sink (foreign "broken pipe"))))
  = Some (Some (foreign "broken pipe"), 2).
Proof. vm_compute. reflexivity. Qed.

Lemma write_error_release_count_witness :
  exists s',
    loop_body (start (0 : counter) one_big_chunk (failing_sink (foreign "broken pipe")))
      = Return (Some (foreign "broken pipe")) s' /\
    releases 3 (trace s') = 0 + 1 + 1.
Proof.
  destruct (@write_error_release_count _ _ _ _ _ _
              (start (0 : counter) one_big_chunk (failing_sink (foreign "broken pipe")))
              chunk_c [] (foreign "broken pipe") [3]
              (mkBufferToBytesWriter
                 (plain_writer (mkSink [x6c; x6c] (Some 0) (foreign "broken pipe"))))
              eq_refl eq_refl eq_refl)
    as (s' & Hbody & _ & Hcount).
  exists s'. split; [exact Hbody|exact Hcount].
Defined.

Lemma Copy_propagates_read_timeout_witness :
  exists s',
    Copy 3 (start (0 : counter) two_chunks_then_timeout open_sink)
    = Some (Some ErrReadTimeout, s').
Proof.
  eexists.
  eapply (@Copy_propagates_read_timeout _ _ _ _ _ _ 2).
  - vm_compute. reflexivity.
  - reflexivity.
  - lia.
Defined.

Lemma timer_marked_once_per_read_witness :
  exists rest,
    trace (state_of (loop_body (start (0 : counter) three_chunks open_sink))) =
      [] ++ [EvRead chunk_a None; EvUpdate; EvIsEmpty chunk_a] ++ rest /\
    updates rest = 0 /\
    timer (state_of (loop_body (start (0 : counter) three_chunks open_sink))) = 1.
Proof.
  apply (@timer_marked_once_per_read _ _ _ _ _ _
           (start (0 : counter) three_chunks open_sink) chunk_a
           [(chunk_b, None); (chunk_c, None); (nil_MultiBuffer, Some wrapped_EOF)]).
  reflexivity.
Defined.

Lemma empty_chunk_released_not_written_witness :
  exists s',
    loop_body (start (0 : counter) [(chunk_b, None); (chunk_c, None)] open_sink)
      = Continue s' /\
    writer s' = open_sink /\
    trace s' = [] ++ [EvRead chunk_b None; EvUpdate; EvIsEmpty chunk_b;
                      EvRelease Loop 2] /\
    releases 2 (trace s') = 0 + 1.
Proof.
  apply (@empty_chunk_released_not_written _ _ _ _ _ _
           (start (0 : counter) [(chunk_b, None); (chunk_c, None)] open_sink)
           chunk_b [(chunk_c, None)]).
  - reflexivity.
  - reflexivity.
Defined.

Lemma Copy_write_end_of_stream_is_success_witness :
  exists s',
    Copy 3 (start (0 : counter) three_chunks (failing_sink wrapped_EOF))
    = Some (None, s').
Proof.
  eexists.
  eapply (@Copy_write_end_of_stream_is_success _ _ _ _ _ _ 2).
  - vm_compute. reflexivity.
  - reflexivity.
  - reflexivity.
  - vm_compute. reflexivity.
  - reflexivity.
  - lia.
Defined.

(** ** The factories *)

Lemma len_make_bytes (size : N) : len (make_bytes size) = size.
Proof.
  unfold len, make_bytes. rewrite repeat_length. apply N2Nat.id.
Qed.

(** C9.  The copying reader adapter gets a scratch buffer of 32 KiB from
    [NewReader] and [NewMergingReader] and one of the requested size from
    [NewMergingReaderSize]; the merging writer gets a buffer of 4 KiB from
    [NewMergingWriter] and one of the requested size from
    [NewMergingWriterSize]. *)
Theorem default_buffer_capacities :
  (32 * 1024 = 32768)%N /\
  (forall st,
     option_map len (reader_scratch (NewReader (plain_reader st)))
     = Some (32 * 1024)%N) /\
  (forall reader,
     option_map len (reader_scratch (NewMergingReader reader))
     = Some (32 * 1024)%N) /\
  (forall reader size,
     option_map len (reader_scratch (NewMergingReaderSize reader size))
     = Some size) /\
  (forall writer,
     option_map len (writer_scratch (NewMergingWriter writer)) = Some 4096%N) /\
  (forall writer size,
     option_map len (writer_scratch (NewMergingWriterSize writer size))
     = Some size).
Proof.
  split; [reflexivity|].
  repeat (match goal with |- _ /\ _ => split end);
    intros; exact (f_equal Some (len_make_bytes _)).
Qed.

(** C8, as stated, fails: given a handle that natively hands out chunks,
    [NewMergingReaderSize] still builds the copying adapter with its
    scratch buffer, and given a sink that natively takes chunks,
    [NewMergingWriterSize] still builds the merging writer with its
    buffer. *)
Lemma merging_factories_counterexample :
  as_MultiBufferReader (chunked_reader native_hello) = Some native_hello /\
  reader_is_passthrough (NewMergingReaderSize (chunked_reader native_hello) 16)
    = false /\
  reader_scratch (NewMergingReaderSize (chunked_reader native_hello) 16)
    = Some (repeat x00 16) /\
  as_MultiBufferWriter (chunked_writer native_sink) = Some native_sink /\
  writer_is_passthrough (NewMergingWriterSize (chunked_writer native_sink) 16)
    = false /\
  writer_scratch (NewMergingWriterSize (chunked_writer native_sink) 16)
    = Some (repeat x00 16).
Proof. repeat split. Qed.

(** C8 (amended).  Given a handle that natively hands out (takes) chunks,
    [NewReader] ([NewWriter]) returns the forwarding adapter around it: no
    scratch buffer, and its [Read] ([Write]) is the native call.  The
    merging factories do not look at what the handle can do: for every
    handle, [NewMergingReaderSize] and [NewMergingReader] return the
    copying reader adapter around it with a scratch buffer of the size
    asked for, respectively of 32 KiB, and [NewMergingWriterSize] and
    [NewMergingWriter] return the merging writer around it with a buffer of
    the size asked for, respectively of 4 KiB; none of them is a forwarding
    adapter. *)
Theorem native_handles_pass_through :
  (forall mr,
     NewReader (chunked_reader mr) = of_readerAdpater (mkReaderAdpater mr) /\
     reader_scratch (NewReader (chunked_reader mr)) = None /\
     Read (NewReader (chunked_reader mr)) =
       (let '(mb, err, mr') := ReadMultiBuffer mr in
        (mb, err, of_readerAdpater (mkReaderAdpater mr')))) /\
  (forall mw,
     NewWriter (chunked_writer mw) = of_writerAdapter (mkWriterAdapter mw) /\
     writer_scratch (NewWriter (chunked_writer mw)) = None /\
     forall mb,
       Write (mkWriterAdapter mw) mb =
         (let '(_, err, released, mw') := WriteMultiBuffer mw mb in
          (err, released, mkWriterAdapter mw'))) /\
  (forall reader size,
     (exists a,
        NewMergingReaderSize reader size = of_BytesToBufferReader a /\
        bbr_reader a = reader /\
        bbr_buffer a = make_bytes size /\ len (bbr_buffer a) = size) /\
     (exists a,
        NewMergingReader reader = of_BytesToBufferReader a /\
        bbr_reader a = reader /\
        bbr_buffer a = make_bytes (32 * 1024) /\
        len (bbr_buffer a) = (32 * 1024)%N) /\
     reader_is_passthrough (NewMergingReaderSize reader size) = false /\
     reader_is_passthrough (NewMergingReader reader) = false) /\
  (forall writer size,
     (exists a,
        NewMergingWriterSize writer size = of_mergingWriter a /\
        mw_writer a = writer /\
        mw_buffer a = make_bytes size /\ len (mw_buffer a) = size) /\
     (exists a,
        NewMergingWriter writer = of_mergingWriter a /\
        mw_writer a = writer /\
        mw_buffer a = make_bytes 4096 /\ len (mw_buffer a) = 4096%N) /\
     writer_is_passthrough (NewMergingWriterSize writer size) = false /\
     writer_is_passthrough (NewMergingWriter writer) = false).
Proof.
  split; [|split; [|split]].
  - intros mr. split; [reflexivity|]. split; [reflexivity|].
    cbn [NewReader as_MultiBufferReader].
    unfold Read, ReaderValue_Reader, readerAdpater_Read. cbn [ra_MultiBufferReader].
    now destruct (ReadMultiBuffer mr) as [[mb err] mr'].
  - intros mw. split; [reflexivity|]. split; [reflexivity|]. reflexivity.
  - intros reader size. split; [|split; [|split; reflexivity]].
    + eexists. split; [reflexivity|]. cbn [bbr_reader bbr_buffer].
      split; [reflexivity|]. split; [reflexivity|apply len_make_bytes].
    + eexists. split; [reflexivity|]. cbn [bbr_reader bbr_buffer].
      split; [reflexivity|]. split; [reflexivity|apply len_make_bytes].
  - intros writer size. split; [|split; [|split; reflexivity]].
    + eexists. split; [reflexivity|]. cbn [mw_writer mw_buffer].
      split; [reflexivity|]. split; [reflexivity|apply len_make_bytes].
    + eexists. split; [reflexivity|]. cbn [mw_writer mw_buffer].
      split; [reflexivity|]. split; [reflexivity|apply len_make_bytes].
Qed.

(** ** Lists *)

Lemma firstn_prefix_app (A : Type) (l1 l2 : list A) (k : nat) :
  length l1 = k -> firstn k (l1 ++ l2) = l1.
Proof.
  intros <-. rewrite firstn_app, Nat.sub_diag, firstn_0, app_nil_r.
  now apply firstn_all2.
Qed.

Lemma firstn_then_more (A : Type) (a b : nat) (l : list A) :
  firstn a l ++ firstn b (skipn a l) = firstn (a + b) l.
Proof.
  rewrite firstn_skipn_comm.
  replace (firstn a l) with (firstn a (firstn (a + b) l)).
  - apply firstn_skipn.
  - rewrite firstn_firstn. f_equal. lia.
Qed.

Lemma length_overwrite (A : Type) (nn : nat) (data p : list A) :
  nn <= length p -> nn <= length data ->
  length (firstn nn data ++ skipn nn p) = length p.
Proof.
  intros Hp Hd. rewrite length_app, length_firstn, length_skipn. lia.
Qed.

(** ** Reading a given number of bytes *)

Section ReadFullFacts.

Context {B : Type} {HB : ByteReader B}.

Variable rep : B -> list byte -> nat -> Prop.

Hypothesis rep_step : forall r data budget p,
  rep r data budget -> 0 < length p ->
  delivers_bytes rep data budget p (io_Read r p).

(** From position [n] on, the loop moves the next bytes the reader stands
    for into the slice, stops when the slice is full or the bytes are used
    up, and leaves the rest of the slice alone; the reader then stands for
    the bytes that follow; the loop ends on an error whenever the slice
    did not get full. *)
Lemma ReadFull_loop_fills : forall fuel r buf n data budget,
  rep r data budget ->
  n <= length buf ->
  (length buf - n) + budget < fuel ->
  exists err buf' r' budget',
    ReadFull_loop fuel r buf n
      = Some (n + Nat.min (length buf - n) (length data), err, buf', r') /\
    buf' = firstn n buf ++ firstn (length buf - n) data
           ++ skipn (n + Nat.min (length buf - n) (length data)) buf /\
    rep r' (skipn (length buf - n) data) budget' /\
    budget' <= budget /\
    (length data < length buf - n -> err <> None).
Proof.
  induction fuel as [|fuel IH]; intros r buf n data budget Hrep Hn Hfuel; [lia|].
  cbn [ReadFull_loop].
  destruct (n <? length buf) eqn:Hlt.
  - apply Nat.ltb_lt in Hlt.
    assert (Hroom : 0 < length (skipn n buf)) by (rewrite length_skipn; lia).
    pose proof (rep_step r data budget (skipn n buf) Hrep Hroom) as Hstep.
    destruct (io_Read r (skipn n buf)) as [[[nn err] p'] r'].
    unfold delivers_bytes in Hstep.
    destruct err as [e|].
    + destruct Hstep as (Hall & Hnn & -> & budget' & Hrep' & Hle).
      rewrite length_skipn in Hnn.
      replace (Nat.min (length buf - n) (length data)) with nn by lia.
      exists (Some e), (firstn n buf ++ firstn nn data ++ skipn nn (skipn n buf)),
             r', budget'.
      split; [reflexivity|]. split; [|split; [|split]].
      * rewrite skipn_skipn.
        rewrite (firstn_all2 (n := nn) data) by lia.
        rewrite (firstn_all2 (n := length buf - n) data) by lia.
        do 3 f_equal. lia.
      * now rewrite skipn_all2 by lia.
      * exact Hle.
      * discriminate.
    + destruct Hstep as (Hnn & Hnd & -> & budget' & Hrep' & Hle & Hzero).
      rewrite length_skipn in Hnn.
      assert (Hlen : length (firstn n buf ++ firstn nn data ++ skipn nn (skipn n buf))
                     = length buf).
      { rewrite length_app, length_overwrite, length_firstn, length_skipn;
          rewrite ?length_skipn; lia. }
      destruct (IH r' (firstn n buf ++ firstn nn data ++ skipn nn (skipn n buf))
                   (n + nn) (skipn nn data) budget' Hrep')
        as (err & buf' & r'' & budget'' & Hrun & Hbuf & Hrep'' & Hle' & Hshort).
      * rewrite Hlen. lia.
      * rewrite Hlen. destruct nn as [|nn]; [specialize (Hzero eq_refl)|]; lia.
      * rewrite Hlen, length_skipn in *.
        replace (n + nn + Nat.min (length buf - (n + nn)) (length data - nn))
          with (n + Nat.min (length buf - n) (length data)) in * by lia.
        exists err, buf', r'', budget''.
        split; [exact Hrun|]. split; [|split; [|split]].
        -- assert (Hprefix : length (firstn n buf ++ firstn nn data) = n + nn)
             by (rewrite length_app, !length_firstn; lia).
           rewrite Hbuf, (app_assoc (firstn n buf)).
           rewrite firstn_prefix_app by exact Hprefix.
           rewrite skipn_app.
           rewrite skipn_all2 with (l := firstn n buf ++ firstn nn data)
             by (rewrite Hprefix; lia).
           rewrite Hprefix, !skipn_skipn.
           cbn [app]. rewrite <- app_assoc. f_equal.
           rewrite (app_assoc (firstn nn data)), firstn_then_more.
           f_equal; f_equal; lia.
        -- rewrite skipn_skipn in Hrep''.
           now replace (length buf - (n + nn) + nn) with (length buf - n)
             in Hrep'' by lia.
        -- lia.
        -- intros Hless. apply Hshort. lia.
  - apply Nat.ltb_ge in Hlt.
    exists None, buf, r, budget.
    replace (length buf - n) with 0 by lia. cbn [Nat.min firstn app skipn].
    rewrite Nat.add_0_r.
    replace n with (length buf) by lia.
    rewrite firstn_all, skipn_all, app_nil_r.
    repeat split; try lia. exact Hrep.
Qed.

(** Reading [size] bytes gives the first [size] bytes the reader stands
    for (all of them when there are fewer), and leaves a reader that stands
    for the bytes after them. *)
Lemma ReadFull_delivers r data budget size fuel :
  rep r data budget ->
  size + budget < fuel ->
  exists err r' budget',
    ReadFull fuel r size = Some (firstn size data, err, r') /\
    rep r' (skipn size data) budget' /\
    budget' <= budget.
Proof.
  intros Hrep Hfuel.
  destruct ReadFull_loop_fills
    with (fuel := fuel) (r := r) (buf := repeat x00 size) (n := 0)
         (data := data) (budget := budget)
    as (err & buf' & r' & budget' & Hrun & Hbuf & Hrep' & Hle & _).
  - exact Hrep.
  - lia.
  - rewrite repeat_length. lia.
  - rewrite repeat_length, Nat.sub_0_r in *. cbn [Nat.add firstn app] in *.
    unfold ReadFull. rewrite Hrun, Hbuf.
    rewrite firstn_prefix_app by apply length_firstn.
    eexists _, r', budget'. split; [reflexivity|]. now split.
Qed.

(** Reading in several steps gives the bytes the reader stands for, cut
    into pieces of the sizes asked for. *)
Lemma ReadFull_seq_delivers fuel sizes : forall r data budget,
  rep r data budget ->
  Forall (fun size => size + budget < fuel) sizes ->
  ReadFull_seq fuel r sizes = Some (chop sizes data).
Proof.
  induction sizes as [|size sizes IH]; intros r data budget Hrep Hfuel;
    cbn [ReadFull_seq chop]; [reflexivity|].
  inversion Hfuel as [|? ? Hsize Hsizes]; subst.
  destruct (ReadFull_delivers r data budget size fuel Hrep Hsize)
    as (err & r' & budget' & Hrun & Hrep' & Hle).
  rewrite Hrun, (IH r' (skipn size data) budget' Hrep'); [reflexivity|].
  apply (Forall_impl _ (P := fun size => size + budget < fuel)); [|exact Hsizes].
  intros; lia.
Qed.

End ReadFullFacts.

(** ** The chunk-to-stream reader *)

Section ChunkToStreamFacts.

Context {R : Type} {HR : Reader R}.

Variable rep : R -> list byte -> nat -> Prop.

Hypothesis rep_step : forall r data budget,
  rep r data budget -> delivers_chunk rep data budget (Read r).

(** Copying out of a chunk delivers the bytes of the chunk first. *)
Lemma drain_delivers stream freed mb p rest data budget budget' :
  data = mb_bytes mb ++ rest ->
  rep stream rest budget' ->
  budget' <= budget ->
  (length (mb_bytes mb) = 0 -> budget' < budget) ->
  0 < length p ->
  delivers_bytes (flat_rep rep) data budget p (drain stream freed mb p).
Proof.
  intros -> Hrep Hle Hzero Hp.
  unfold drain, delivers_bytes.
  set (n := Nat.min (length p) (length (mb_bytes mb))).
  assert (Hn : n <= length (mb_bytes mb)) by (subst n; lia).
  assert (Hfirst : firstn n (mb_bytes mb ++ rest) = firstn n (mb_bytes mb)).
  { rewrite firstn_app. replace (n - length (mb_bytes mb)) with 0 by lia.
    now rewrite firstn_0, app_nil_r. }
  assert (Hskip : skipn n (mb_bytes mb ++ rest) = skipn n (mb_bytes mb) ++ rest).
  { rewrite skipn_app. replace (n - length (mb_bytes mb)) with 0 by lia.
    reflexivity. }
  destruct (skipn n (mb_bytes mb)) as [|b bs] eqn:Hleft.
  - assert (Hall : length (mb_bytes mb) <= n).
    { pose proof (length_skipn n (mb_bytes mb)) as Hl.
      rewrite Hleft in Hl. cbn [length] in Hl. lia. }
    repeat split.
    + subst n; lia.
    + rewrite length_app. lia.
    + now rewrite Hfirst.
    + exists budget'. repeat split.
      * cbn [btr_current]. discriminate.
      * exists rest. cbn [btr_current btr_stream held].
        split; [now rewrite Hskip|exact Hrep].
      * exact Hle.
      * intros Hn0. apply Hzero. lia.
  - assert (Hsome : n < length (mb_bytes mb)).
    { pose proof (length_skipn n (mb_bytes mb)) as Hl.
      rewrite Hleft in Hl. cbn [length] in Hl. lia. }
    repeat split.
    + subst n; lia.
    + rewrite length_app. lia.
    + now rewrite Hfirst.
    + exists budget'. repeat split.
      * cbn [btr_current]. intros mb' [= <-]. discriminate.
      * exists rest. cbn [btr_current btr_stream held mb_bytes].
        split; [now rewrite Hskip|exact Hrep].
      * exact Hle.
      * intros Hn0. subst n. lia.
Qed.

(** Each byte-level read of the adapter delivers the next bytes of what
    it stands for, out of the chunk held over if there is one. *)
Lemma flat_rep_step r data budget p :
  flat_rep rep r data budget ->
  0 < length p ->
  delivers_bytes (flat_rep rep) data budget p (io_Read r p).
Proof.
  intros (Hheld & rest & -> & Hrep) Hp.
  unfold io_Read, bufferToBytesReader_ByteReader, bufferToBytesReader_Read.
  destruct (btr_current r) as [mb|] eqn:Hcur; cbn [held].
  - apply drain_delivers with (rest := rest) (budget' := budget);
      try assumption; try reflexivity; try lia.
    intros Hempty. exfalso. apply (Hheld mb eq_refl).
    now apply length_zero_iff_nil.
  - cbn [app].
    pose proof (rep_step _ _ _ Hrep) as Hstep.
    destruct (Read (btr_stream r)) as [[mb err] stream'].
    unfold delivers_chunk in Hstep.
    destruct err as [e|].
    + destruct Hstep as (-> & budget' & Hrep' & Hle).
      cbn [delivers_bytes length firstn skipn app].
      split; [reflexivity|]. split; [lia|]. split; [reflexivity|].
      exists budget'. split; [|exact Hle].
      split; [discriminate|]. exists []. now split.
    + destruct Hstep as (Hlen & Hbytes & budget' & Hrep' & Hle & Hzero).
      apply drain_delivers
        with (rest := skipn (length (mb_bytes mb)) rest) (budget' := budget');
        try assumption.
      rewrite Hbytes at 1. symmetry. apply firstn_skipn.
Qed.

End ChunkToStreamFacts.

(** ** Raw streams and the stream-to-chunk readers *)

(** What one read of a raw stream does. *)
Lemma raw_Read_delivers (st : rawstream) (p : list byte) :
  0 < length p ->
  let '(nn, err, p', st') := raw_Read st p in
  nn <= length p /\ nn <= length (pending st) /\
  p' = firstn nn (pending st) ++ skipn nn p /\
  pending st' = skipn nn (pending st) /\
  length (sched st') <= length (sched st) /\
  eager st' = eager st /\
  match err with
  | None => nn = 0 -> length (sched st') < length (sched st)
  | Some _ => nn = length (pending st) /\ (eager st = false -> pending st = [])
  end.
Proof.
  intros Hp. unfold raw_Read, granted.
  destruct (pending st) as [|b bs] eqn:Hpending.
  - rewrite Hpending. cbn. repeat split; lia.
  - cbn [pending sched eager].
    set (n := Nat.min _ _).
    destruct (eager st && (length (b :: bs) <=? n)) eqn:Heager.
    + apply andb_true_iff in Heager as (Heager & Hall).
      apply Nat.leb_le in Hall.
      repeat split; try (subst n; lia).
      * destruct (sched st); cbn [tl length]; lia.
      * rewrite Heager. discriminate.
    + repeat split; try (subst n; lia).
      * destruct (sched st); cbn [tl length]; lia.
      * subst n. destruct (sched st); cbn [tl length] in *; lia.
Qed.

(** The same, for a raw handle. *)
Lemma io_Read_raw (h : io_Reader) (p : list byte) :
  0 < length p ->
  let '(nn, err, p', h') := io_Read h p in
  nn <= length p /\ nn <= length (pending (stream_of h)) /\
  p' = firstn nn (pending (stream_of h)) ++ skipn nn p /\
  pending (stream_of h') = skipn nn (pending (stream_of h)) /\
  length (sched (stream_of h')) <= length (sched (stream_of h)) /\
  eager (stream_of h') = eager (stream_of h) /\
  match err with
  | None => nn = 0 -> length (sched (stream_of h')) < length (sched (stream_of h))
  | Some _ => nn = length (pending (stream_of h)) /\
              (eager (stream_of h) = false -> pending (stream_of h) = [])
  end.
Proof.
  intros Hp. unfold io_Read, io_Reader_ByteReader.
  destruct h as [st|mr]; cbn [stream_of].
  - pose proof (raw_Read_delivers st p Hp) as Hstep.
    now destruct (raw_Read st p) as [[[nn err] p'] st'].
  - pose proof (raw_Read_delivers (mbr_stream mr) p Hp) as Hstep.
    now destruct (raw_Read (mbr_stream mr) p) as [[[nn err] p'] st'].
Qed.

Lemma raw_rep_step (h : io_Reader) (data : list byte) (budget : nat) (p : list byte) :
  raw_rep h data budget ->
  0 < length p ->
  delivers_bytes raw_rep data budget p (io_Read h p).
Proof.
  intros (-> & ->) Hp.
  pose proof (io_Read_raw h p Hp) as Hstep.
  destruct (io_Read h p) as [[[nn err] p'] h'].
  destruct Hstep as (Hnn & Hnd & Hp' & Hpend & Hle & _ & Herr).
  unfold delivers_bytes. destruct err as [e|].
  - destruct Herr as (Hall & _).
    repeat split; try assumption.
    exists (length (sched (stream_of h'))). split; [|exact Hle].
    split; [|reflexivity].
    rewrite Hpend, Hall. symmetry. apply skipn_all.
  - repeat split; try assumption.
    exists (length (sched (stream_of h'))). repeat split; try assumption.
    now symmetry.
Qed.

Lemma chunked_rep_step (r : ReaderValue) (data : list byte) (budget : nat) :
  chunked_rep r data budget ->
  delivers_chunk chunked_rep data budget (Read r).
Proof.
  unfold Read, ReaderValue_Reader.
  destruct r as [a|a]; cbn [chunked_rep].
  - intros (-> & ->). cbn [stream_of].
    unfold readerAdpater_Read, ReadMultiBuffer, granted.
    destruct (pending (mbr_stream (ra_MultiBufferReader a))) as [|b bs] eqn:Hpending.
    + cbn [delivers_chunk chunked_rep ra_MultiBufferReader].
      split; [reflexivity|].
      exists (length (sched (mbr_stream (ra_MultiBufferReader a)))).
      split; [|lia]. split; [|reflexivity]. cbn [stream_of]. now symmetry.
    + unfold delivers_chunk. cbn [mb_bytes chunked_rep ra_MultiBufferReader].
      set (n := Nat.min _ _).
      assert (Hn : n <= length (b :: bs)) by (subst n; lia).
      rewrite length_firstn. replace (Nat.min n (length (b :: bs))) with n by lia.
      repeat split; [exact Hn|].
      exists (length (tl (sched (mbr_stream (ra_MultiBufferReader a))))).
      repeat split.
      * destruct (sched (mbr_stream (ra_MultiBufferReader a))); cbn [tl length]; lia.
      * intros Hn0. subst n.
        destruct (sched (mbr_stream (ra_MultiBufferReader a)));
          cbn [tl length] in *; lia.
  - intros (Hbuf & Heager & (-> & ->)).
    pose proof (io_Read_raw (bbr_reader a) (bbr_buffer a) Hbuf) as Hstep.
    unfold BytesToBufferReader_Read.
    destruct (io_Read (bbr_reader a) (bbr_buffer a)) as [[[nn err] p'] reader'].
    destruct Hstep as (Hnn & Hnd & -> & Hpend & Hle & Heager' & Herr).
    rewrite Heager in Heager'.
    unfold delivers_chunk. destruct err as [e|].
    + destruct Herr as (Hall & Hempty). specialize (Hempty Heager).
      split; [exact Hempty|].
      exists (length (sched (stream_of reader'))). split; [|exact Hle].
      cbn [chunked_rep bbr_buffer bbr_reader].
      split; [|split; [exact Heager'|split; [|reflexivity]]].
      * rewrite length_overwrite by assumption. exact Hbuf.
      * rewrite Hpend, Hempty. now destruct nn.
    + cbn [mb_bytes chunked_rep bbr_buffer bbr_reader].
      rewrite firstn_prefix_app by (rewrite length_firstn; lia).
      rewrite length_firstn.
      replace (Nat.min nn (length (pending (stream_of (bbr_reader a))))) with nn
        by lia.
      repeat split; [exact Hnd|].
      exists (length (sched (stream_of reader'))).
      split; [|split; [exact Hle|exact Herr]].
      split; [|split; [exact Heager'|split; [now symmetry|reflexivity]]].
      rewrite length_overwrite by assumption. exact Hbuf.
Qed.




(** The same bytes come out whatever the size of the chunks in between:
    here the scratch buffer has room for three bytes, and the native
    reader hands out the pieces of the stream whole. *)
Example round_trip_small_scratch :
  ReadFull_seq 8 (ToBytesReader (NewMergingReaderSize (plain_reader hello_stream) 3))
    [1; 3; 1]
  = Some [[x68]; [x65; x6c; x6c]; [x6f]].
Proof. vm_compute. reflexivity. Qed.

Example round_trip_native :
  ReadFull_seq 8 (ToBytesReader (NewReader (chunked_reader native_hello))) [1; 3; 1]
  = Some [[x68]; [x65; x6c; x6c]; [x6f]].
Proof. vm_compute. reflexivity. Qed.

(* ================================================================== *)
(** * Part V : whole runs of the copy loop, and the suppliers          *)
(* ================================================================== *)

(** ** Chunks in a trace *)

Lemma read_chunks_app (tr1 tr2 : list event) :
  read_chunks (tr1 ++ tr2) = read_chunks tr1 ++ read_chunks tr2.
Proof. apply flat_map_app. Qed.

Lemma written_chunks_app (tr1 tr2 : list event) :
  written_chunks (tr1 ++ tr2) = written_chunks tr1 ++ written_chunks tr2.
Proof. apply flat_map_app. Qed.

Lemma loop_released_app (tr1 tr2 : list event) :
  loop_released (tr1 ++ tr2) = loop_released tr1 ++ loop_released tr2.
Proof. apply flat_map_app. Qed.

Lemma read_chunks_by_sink (released : list nat) :
  read_chunks (map (EvRelease Sink) released) = [].
Proof.
  induction released as [|i released IH]; [reflexivity|exact IH].
Qed.

Lemma written_chunks_by_sink (released : list nat) :
  written_chunks (map (EvRelease Sink) released) = [].
Proof.
  induction released as [|i released IH]; [reflexivity|exact IH].
Qed.

Lemma loop_released_by_sink (released : list nat) :
  loop_released (map (EvRelease Sink) released) = [].
Proof.
  induction released as [|i released IH]; [reflexivity|exact IH].
Qed.

Section CopyEngineRuns.

Context {R W T : Type}.
Context {HR : Reader R} {HW : Writer W} {HT : ActivityTimer T}.

Implicit Types (s : state R W T) (P : state R W T -> Prop).

(** The four ways through the loop body. *)
Ltac by_pass s :=
  let Hread := fresh "Hread" in
  let Hempty := fresh "Hempty" in
  let Hwrite := fresh "Hwrite" in
  destruct (Read (reader s)) as [[mb [e|]] r'] eqn:Hread;
  [ rewrite (loop_body_read_error s mb e r' Hread)
  | destruct (IsEmpty mb) eqn:Hempty;
    [ rewrite (loop_body_empty s mb r' Hread Hempty)
    | destruct (Write (writer s) mb) as [[[e|] released] w'] eqn:Hwrite;
      [ rewrite (loop_body_write_error s mb r' e released w' Hread Hempty Hwrite)
      | rewrite (loop_body_write_ok s mb r' released w' Hread Hempty Hwrite) ] ] ].

Ltac count_chunks :=
  cbn [state_of trace timer];
  rewrite ?read_chunks_app, ?written_chunks_app, ?loop_released_app,
          ?updates_app, ?reads_ok_app, ?filter_app, ?map_app;
  rewrite ?read_chunks_by_sink, ?written_chunks_by_sink, ?loop_released_by_sink,
          ?updates_by_sink, ?reads_ok_by_sink.

(** A pass that returns, returns an error. *)
Lemma loop_body_returns_error s err s' :
  loop_body s = Return err s' -> exists e, err = Some e.
Proof.
  by_pass s; intros [= <- _] || discriminate; now eexists.
Qed.

Lemma copyInternal_returns_error fuel : forall s err s',
  copyInternal fuel s = Some (err, s') -> exists e, err = Some e.
Proof.
  induction fuel as [|fuel IH]; intros s err s' Hrun; [discriminate|].
  cbn [copyInternal] in Hrun.
  destruct (loop_body s) as [s1|err1 s1] eqn:Hbody.
  - exact (IH s1 err s' Hrun).
  - injection Hrun as <- <-. exact (loop_body_returns_error s err1 s1 Hbody).
Qed.

(** What every pass keeps, a whole run keeps. *)
Lemma copyInternal_keeps P :
  (forall s, P s -> P (state_of (loop_body s))) ->
  forall fuel s err s',
    P s -> copyInternal fuel s = Some (err, s') -> P s'.
Proof.
  intros Hpass.
  induction fuel as [|fuel IH]; intros s err s' Hs Hrun; [discriminate|].
  cbn [copyInternal] in Hrun.
  specialize (Hpass s Hs).
  destruct (loop_body s) as [s1|err1 s1]; cbn [state_of] in Hpass.
  - exact (IH s1 err s' Hpass Hrun).
  - injection Hrun as <- <-. exact Hpass.
Qed.

(** What every pass that falls through keeps, any number of them keeps. *)
Lemma passes_keep P :
  (forall s s', P s -> loop_body s = Continue s' -> P s') ->
  forall k s sk, P s -> passes k s = Some sk -> P sk.
Proof.
  intros Hpass.
  induction k as [|k IH]; intros s sk Hs Hk; cbn [passes] in Hk.
  - now injection Hk as <-.
  - destruct (loop_body s) as [s1|err1 s1] eqn:Hbody; [|discriminate].
    exact (IH s1 sk (Hpass s s1 Hs Hbody) Hk).
Qed.

Lemma pass_relays_in_order s :
  relayed_in_order (trace s) ->
  relayed_in_order (trace (state_of (loop_body s))).
Proof.
  unfold relayed_in_order. intros Hs.
  by_pass s; count_chunks; rewrite Hs; cbn; unfold nonempty;
    rewrite ?Hempty; cbn; rewrite ?app_nil_r; reflexivity.
Qed.

Lemma pass_releases_the_empty s s' :
  released_the_empty (trace s) ->
  loop_body s = Continue s' ->
  released_the_empty (trace s').
Proof.
  unfold released_the_empty. intros Hs.
  by_pass s; intros Hbody; try discriminate;
    apply (f_equal state_of) in Hbody; cbn [state_of] in Hbody; subst s';
    count_chunks; rewrite Hs; cbn;
    rewrite ?Hempty; cbn; rewrite ?app_nil_r; reflexivity.
Qed.

Lemma pass_marks_per_read t0 s :
  marked_per_read t0 s ->
  marked_per_read t0 (state_of (loop_body s)).
Proof.
  unfold marked_per_read. intros (Hcount & Htimer).
  by_pass s; count_chunks; rewrite Hcount, Htimer; cbn;
    rewrite ?Nat.add_0_r, ?Nat.add_1_r; now split.
Qed.

(** X1.  [copyInternal] never returns a nil error: whenever the loop
    ends, it ends on an error. *)
Theorem copyInternal_never_returns_nil :
  forall (fuel : nat) (s : state R W T) (err : option error) (s' : state R W T),
    copyInternal fuel s = Some (err, s') -> err <> None.
Proof.
  intros fuel s err s' Hrun.
  destruct (copyInternal_returns_error fuel s err s' Hrun) as (e & ->).
  discriminate.
Qed.

(** X2.  Whatever [Copy] returns comes from an error [e] on which the loop
    ended, with the state the loop left: nil exactly when the root cause of
    [e] is end-of-stream, and [e] itself otherwise. *)
Theorem Copy_result_comes_from_the_loop :
  forall (fuel : nat) (s : state R W T) (res : option error) (s' : state R W T),
    Copy fuel s = Some (res, s') ->
    exists e,
      copyInternal fuel s = Some (Some e, s') /\
      res = if is_EOF (Cause e) then None else Some e.
Proof.
  intros fuel s res s' Hcopy. unfold Copy in Hcopy.
  destruct (copyInternal fuel s) as [[err s1]|] eqn:Hrun; [|discriminate].
  destruct (copyInternal_returns_error fuel s err s1 Hrun) as (e & ->).
  exists e. destruct (is_EOF (Cause e)); cbn [negb] in Hcopy;
    now injection Hcopy as <- <-.
Qed.

(** X3.  Over a whole run of [copyInternal] the timer is marked once for
    each read that succeeded, and at no other time. *)
Theorem run_marks_timer_per_read :
  forall (fuel : nat) (t : T) (r : R) (w : W)
         (err : option error) (s' : state R W T),
    copyInternal fuel (start t r w) = Some (err, s') ->
    updates (trace s') = reads_ok (trace s') /\
    timer s' = Nat.iter (reads_ok (trace s')) Update t.
Proof.
  intros fuel t r w err s' Hrun.
  apply (copyInternal_keeps (marked_per_read t) (pass_marks_per_read t)
           fuel (start t r w) err s'); [|exact Hrun].
  now split.
Qed.

(** X4.  Over a whole run of [copyInternal] the sink is handed exactly the
    non-empty chunks that were read, each once and in the order they were
    read. *)
Theorem run_relays_chunks_in_order :
  forall (fuel : nat) (t : T) (r : R) (w : W)
         (err : option error) (s' : state R W T),
    copyInternal fuel (start t r w) = Some (err, s') ->
    written_chunks (trace s') = filter nonempty (read_chunks (trace s')).
Proof.
  intros fuel t r w err s' Hrun.
  apply (copyInternal_keeps (fun s => relayed_in_order (trace s))
           pass_relays_in_order fuel (start t r w) err s'); [|exact Hrun].
  reflexivity.
Qed.

(** X5.  A read that reports an error ends the loop at once with that
    error, whatever it is: the timer is not marked, the sink is not called,
    and the chunk that came with the error is neither written nor
    released, even if it is not empty. *)
Theorem read_error_ends_the_run :
  forall (k : nat) (s sk : state R W T) (mb : MultiBuffer) (e : error) (r' : R),
    passes k s = Some sk ->
    Read (reader sk) = (mb, Some e, r') ->
    forall fuel, k < fuel ->
      exists s',
        copyInternal fuel s = Some (Some e, s') /\
        writer s' = writer sk /\
        timer s' = timer sk /\
        trace s' = trace sk ++ [EvRead mb (Some e)] /\
        written_chunks (trace s') = written_chunks (trace sk) /\
        releases (mb_id mb) (trace s') = releases (mb_id mb) (trace sk).
Proof.
  intros k s sk mb e r' Hk Hread fuel Hfuel.
  eexists. split.
  - apply (copyInternal_return_at k s sk _ _ fuel Hk
             (loop_body_read_error sk mb e r' Hread) Hfuel).
  - cbn [writer timer trace]. repeat split.
    + rewrite written_chunks_app. cbn. now rewrite app_nil_r.
    + rewrite releases_app. cbn. lia.
Qed.

(** X6.  As long as the loop goes on, the chunks it has released itself
    are exactly the empty chunks it has read, each once and in the order
    they were read: a chunk the sink accepted is left to the sink. *)
Theorem loop_releases_only_empty_chunks :
  forall (k : nat) (t : T) (r : R) (w : W) (sk : state R W T),
    passes k (start t r w) = Some sk ->
    loop_released (trace sk) = map mb_id (filter IsEmpty (read_chunks (trace sk))).
Proof.
  intros k t r w sk Hk.
  apply (passes_keep (fun s => released_the_empty (trace s))
           pass_releases_the_empty k (start t r w) sk); [|exact Hk].
  reflexivity.
Qed.

End CopyEngineRuns.

(** ** The suppliers *)

Lemma skipn_window (A : Type) (k m : nat) (l : list A) :
  k <= m -> m <= length l ->
  skipn k (firstn m l) ++ skipn m l = skipn k l.
Proof.
  intros Hk Hm.
  rewrite <- (firstn_skipn m l) at 3.
  rewrite skipn_app, length_firstn.
  replace (k - Nat.min m (length l)) with 0 by lia.
  reflexivity.
Qed.

(** A raw handle reports no error but that of its stream, which stays the
    same from read to read. *)
Lemma io_Read_raw_error (h : io_Reader) (p : list byte) :
  let '(_, err, _, h') := io_Read h p in
  fin (stream_of h') = fin (stream_of h) /\
  forall e, err = Some e -> e = fin (stream_of h).
Proof.
  unfold io_Read, io_Reader_ByteReader, raw_Read.
  destruct h as [st|mr]; cbn [stream_of].
  - destruct (pending st); [|destruct (eager st && _)]; cbn [stream_of fin];
      (split; [reflexivity|]); intros e [= <-] || discriminate; reflexivity.
  - destruct (pending (mbr_stream mr));
      [|destruct (eager (mbr_stream mr) && _)]; cbn [stream_of mbr_stream fin];
      (split; [reflexivity|]); intros e [= <-] || discriminate; reflexivity.
Qed.

Lemma ReadFull_loop_raw_error fuel : forall (h : io_Reader) buf n n' e buf' h',
  ReadFull_loop fuel h buf n = Some (n', Some e, buf', h') ->
  e = fin (stream_of h).
Proof.
  induction fuel as [|fuel IH]; intros h buf n n' e buf' h' Hrun;
    cbn [ReadFull_loop] in Hrun;
    destruct (n <? length buf); try discriminate.
  pose proof (io_Read_raw_error h (skipn n buf)) as Hread.
  destruct (io_Read h (skipn n buf)) as [[[nn err] p'] h1].
  destruct Hread as (Hfin & Herr).
  destruct err as [e1|].
  - injection Hrun as _ <- _ _. now apply Herr.
  - rewrite <- Hfin. exact (IH _ _ _ _ _ _ _ Hrun).
Qed.

(** [io.ReadFull] into the first [size] bytes of [b], over a raw handle. *)
Lemma ReadFullFrom_raw (h : io_Reader) (size : nat) (b : list byte) (fuel : nat) :
  size <= length b ->
  size + length (sched (stream_of h)) < fuel ->
  exists err sub h',
    io_ReadFull fuel h (firstn size b)
      = Some (Nat.min size (length (pending (stream_of h))), err, sub, h') /\
    sub = firstn size (pending (stream_of h))
          ++ skipn (Nat.min size (length (pending (stream_of h)))) (firstn size b) /\
    (size <= length (pending (stream_of h)) ->
       err = None /\ pending (stream_of h') = skipn size (pending (stream_of h))) /\
    (length (pending (stream_of h)) < size ->
       err = Some (if (0 <? length (pending (stream_of h)))
                      && is_EOF (fin (stream_of h))
                   then io_ErrUnexpectedEOF else fin (stream_of h))).
Proof.
  intros Hsize Hfuel.
  assert (Hlen : length (firstn size b) = size) by (rewrite length_firstn; lia).
  destruct (@ReadFull_loop_fills io_Reader _ raw_rep raw_rep_step fuel h
              (firstn size b) 0 (pending (stream_of h))
              (length (sched (stream_of h))))
    as (err & sub & h' & budget' & Hrun & Hsub & (Hpending & _) & _ & Hshort).
  - now split.
  - lia.
  - rewrite Hlen. lia.
  - rewrite Hlen, Nat.sub_0_r in *. cbn [Nat.add firstn app] in *.
    unfold io_ReadFull. rewrite Hrun, Hlen.
    destruct (Nat.le_gt_cases size (length (pending (stream_of h)))) as [Hfits|Hless].
    + replace (Nat.min size (length (pending (stream_of h)))) with size in * by lia.
      rewrite Nat.leb_refl.
      exists None, sub, h'. repeat split; try assumption; try lia. now symmetry.
    + specialize (Hshort Hless).
      destruct err as [e|]; [|contradiction].
      replace (Nat.min size (length (pending (stream_of h))))
        with (length (pending (stream_of h))) in * by lia.
      replace (size <=? length (pending (stream_of h))) with false
        by (symmetry; apply Nat.leb_gt; exact Hless).
      rewrite (ReadFull_loop_raw_error _ _ _ _ _ _ _ _ Hrun).
      eexists _, sub, h'. split; [reflexivity|].
      split; [exact Hsub|]. split; [lia|].
      intros _. now destruct (_ && _).
Qed.

(** X7.  A supplier made by [ReadFullFrom(reader, size)], called on a slice
    [b] of at least [size] bytes over a stream with at least [size] bytes
    pending, returns [size] and no error; the first [size] bytes of [b] are
    then the next [size] bytes of the stream, the rest of [b] is untouched,
    and the stream has moved on by exactly [size] bytes. *)
Theorem ReadFullFrom_fills_exactly :
  forall (h : io_Reader) (size : Z) (b : list byte) (fuel : nat),
    (0 <= size)%Z ->
    (size <= Z.of_nat (length b))%Z ->
    (size <= Z.of_nat (length (pending (stream_of h))))%Z ->
    Z.to_nat size + length (sched (stream_of h)) < fuel ->
    exists h',
      ReadFullFrom fuel h size b
        = Returned (Z.to_nat size, None,
                    firstn (Z.to_nat size) (pending (stream_of h))
                    ++ skipn (Z.to_nat size) b,
                    h') /\
      pending (stream_of h') = skipn (Z.to_nat size) (pending (stream_of h)).
Proof.
  intros h size b fuel Hpos Hb Hdata Hfuel.
  unfold ReadFullFrom.
  replace ((size <? 0) || (Z.of_nat (length b) <? size))%Z with false
    by (symmetry; apply orb_false_iff; split; apply Z.ltb_ge; lia).
  destruct (ReadFullFrom_raw h (Z.to_nat size) b fuel)
    as (err & sub & h' & Hrun & Hsub & Hfull & _); [lia|exact Hfuel|].
  destruct Hfull as (-> & Hpending); [lia|].
  replace (Nat.min (Z.to_nat size) (length (pending (stream_of h))))
    with (Z.to_nat size) in * by lia.
  rewrite Hrun. exists h'. split; [|exact Hpending].
  rewrite Hsub, skipn_all2, app_nil_r by (rewrite length_firstn; lia).
  reflexivity.
Qed.

(** X8.  Called on a slice [b] of at least [size] bytes over a stream with
    fewer than [size] bytes pending, the supplier of
    [ReadFullFrom(reader, size)] never reports success: it
    returns the number of bytes that were left together with an error,
    having moved those bytes to the front of [b] and left the rest of [b]
    untouched.  The error is [io.ErrUnexpectedEOF] when some bytes were
    left and the stream ends with [io.EOF], and the error of the stream
    otherwise. *)
Theorem ReadFullFrom_short_stream :
  forall (h : io_Reader) (size : Z) (b : list byte) (fuel : nat),
    (size <= Z.of_nat (length b))%Z ->
    (Z.of_nat (length (pending (stream_of h))) < size)%Z ->
    Z.to_nat size + length (sched (stream_of h)) < fuel ->
    exists h',
      ReadFullFrom fuel h size b
        = Returned (length (pending (stream_of h)),
                    Some (if (0 <? length (pending (stream_of h)))
                             && is_EOF (fin (stream_of h))
                          then io_ErrUnexpectedEOF else fin (stream_of h)),
                    pending (stream_of h)
                    ++ skipn (length (pending (stream_of h))) b,
                    h').
Proof.
  intros h size b fuel Hb Hdata Hfuel.
  unfold ReadFullFrom.
  replace ((size <? 0) || (Z.of_nat (length b) <? size))%Z with false
    by (symmetry; apply orb_false_iff; split; apply Z.ltb_ge; lia).
  destruct (ReadFullFrom_raw h (Z.to_nat size) b fuel)
    as (err & sub & h' & Hrun & Hsub & _ & Hshort); [lia|exact Hfuel|].
  rewrite Hshort in Hrun by lia.
  replace (Nat.min (Z.to_nat size) (length (pending (stream_of h))))
    with (length (pending (stream_of h))) in * by lia.
  rewrite Hrun. exists h'. f_equal. f_equal. f_equal.
  rewrite Hsub, firstn_all2 by lia.
  rewrite <- app_assoc. f_equal.
  apply skipn_window; lia.
Qed.

(** X9.  Asked for zero bytes, the supplier of [ReadFullFrom(reader, 0)]
    returns zero and no error without calling the reader at all, whatever
    the reader and the slice are, even at the end of the stream. *)
Theorem ReadFullFrom_zero_reads_nothing :
  forall (B : Type) (HB : ByteReader B) (reader : B) (b : list byte) (fuel : nat),
    ReadFullFrom fuel reader 0 b = Returned (0, None, b, reader).
Proof.
  intros B HB reader b fuel.
  unfold ReadFullFrom, io_ReadFull. cbn [Z.ltb Z.compare orb Z.to_nat firstn].
  destruct (Z.of_nat (length b)) eqn:Hlen; cbn [Z.ltb Z.compare];
    try (exfalso; lia);
    destruct fuel; reflexivity.
Qed.

(** ** Whole runs and suppliers at work *)

Lemma copyInternal_never_returns_nil_witness :
  exists s',
    copyInternal 4 (start (0 : counter) three_chunks open_sink)
      = Some (Some wrapped_EOF, s') /\
    Some wrapped_EOF <> None.
Proof.
  eexists. split.
  - vm_compute. reflexivity.
  - eapply (@copyInternal_never_returns_nil _ _ _ _ _ _ 4
              (start (0 : counter) three_chunks open_sink)).
    vm_compute. reflexivity.
Defined.

Lemma Copy_result_comes_from_the_loop_witness :
  exists s' e,
    copyInternal 4 (start (0 : counter) three_chunks open_sink)
      = Some (Some e, s') /\
    None = (if is_EOF (Cause e) then None else Some e).
Proof.
  eexists.
  eapply (@Copy_result_comes_from_the_loop _ _ _ _ _ _ 4
            (start (0 : counter) three_chunks open_sink) None).
  vm_compute. reflexivity.
Defined.

Lemma run_marks_timer_per_read_witness :
  exists s',
    copyInternal 4 (start (0 : counter) three_chunks open_sink)
      = Some (Some wrapped_EOF, s') /\
    updates (trace s') = reads_ok (trace s') /\
    timer s' = Nat.iter (reads_ok (trace s')) Update 0.
Proof.
  eexists. split.
  - vm_compute. reflexivity.
  - apply (@run_marks_timer_per_read _ _ _ _ _ _ 4 (0 : counter) three_chunks
             open_sink (Some wrapped_EOF)).
    vm_compute. reflexivity.
Defined.

Lemma run_relays_chunks_in_order_witness :
  exists s',
    copyInternal 4 (start (0 : counter) three_chunks open_sink)
      = Some (Some wrapped_EOF, s') /\
    written_chunks (trace s') = filter nonempty (read_chunks (trace s')).
Proof.
  eexists. split.
  - vm_compute. reflexivity.
  - apply (@run_relays_chunks_in_order _ _ _ _ _ _ 4 (0 : counter) three_chunks
             open_sink (Some wrapped_EOF)).
    vm_compute. reflexivity.
Defined.

Lemma read_error_ends_the_run_witness :
  exists s',
    copyInternal 2 (start (0 : counter) chunk_with_error open_sink)
      = Some (Some (foreign "reset by peer"), s') /\
    written_chunks (trace s') = [chunk_a] /\
    releases (mb_id chunk_c) (trace s') = 0.
Proof.
  eassert (Hk : passes 1 (start (0 : counter) chunk_with_error open_sink) = Some _)
    by (vm_compute; reflexivity).
  destruct (@read_error_ends_the_run _ _ _ _ _ _ 1
              (start (0 : counter) chunk_with_error open_sink) _
              chunk_c (foreign "reset by peer") [(chunk_a, None)]
              Hk eq_refl 2)
    as (s' & Hrun & _ & _ & _ & Hwritten & Hreleases); [lia|].
  exists s'. split; [exact Hrun|]. split; [exact Hwritten|exact Hreleases].
Defined.

Lemma loop_releases_only_empty_chunks_witness :
  exists sk,
    passes 3 (start (0 : counter) three_chunks open_sink) = Some sk /\
    loop_released (trace sk) = map mb_id (filter IsEmpty (read_chunks (trace sk))).
Proof.
  eexists. split.
  - vm_compute. reflexivity.
  - apply (@loop_releases_only_empty_chunks _ _ _ _ _ _ 3 (0 : counter)
             three_chunks open_sink).
    vm_compute. reflexivity.
Defined.

Lemma ReadFullFrom_fills_exactly_witness :
  exists h',
    ReadFullFrom 7 (plain_reader hello_stream) 3 (repeat x00 6)
      = Returned (Z.to_nat 3, None,
                  firstn (Z.to_nat 3) (pending (stream_of (plain_reader hello_stream)))
                  ++ skipn (Z.to_nat 3) (repeat x00 6),
                  h') /\
    pending (stream_of h')
      = skipn (Z.to_nat 3) (pending (stream_of (plain_reader hello_stream))).
Proof.
  apply (ReadFullFrom_fills_exactly (plain_reader hello_stream) 3 (repeat x00 6) 7).
  - lia.
  - cbn. lia.
  - cbn. lia.
  - cbn. lia.
Defined.

Lemma ReadFullFrom_short_stream_witness :
  exists h',
    ReadFullFrom 10 (plain_reader hello_stream) 6 (repeat x00 6)
      = Returned (5, Some io_ErrUnexpectedEOF, hello ++ [x00], h').
Proof.
  apply (ReadFullFrom_short_stream (plain_reader hello_stream) 6 (repeat x00 6) 10).
  - cbn. lia.
  - cbn. lia.
  - cbn. lia.
Defined.
